(** * Random-coffee pairing engine: a shallow embedding of [src/pairing.py]

    The development follows the module top to bottom: the history decoder
    ([parse_previous_pairs_from_metadata]), the avoid-set construction
    ([build_previous_matches_dict]), partner selection ([find_best_match]),
    the match engine ([generate_pairs]), the round encoder
    ([pairs_to_metadata]) and the notification dispatcher
    ([send_pair_notifications]).

    Python values that come from Slack are JSON values; exceptions are an
    explicit [Raise] outcome; the module-level random source and the Slack
    client are interfaces whose every lawful behaviour is quantified over. *)

From stdpp Require Import gmap strings list fin_maps pretty.

Set Warnings "-register-all,-clear-no-such-hyp".
Set Default Proof Using "Type".

Open Scope string_scope.
Open Scope list_scope.
Open Scope nat_scope.

(** ** Python values and exceptions *)

(** JSON-shaped Python values, as [conversations_history] returns them.
    A JSON float behaves in this module exactly like a non-zero or zero
    [VInt] (it is never a dict, a list or a string), so it is not given a
    constructor of its own. *)
Inductive pyval :=
| VNone
| VBool (b : bool)
| VInt (z : Z)
| VStr (s : string)
| VList (l : list pyval)
| VDict (d : gmap string pyval).

(** The two messages with which [PairingError] is raised in the module. *)
Inductive pairing_failure :=
| NoAvailableMembers (member1 : string)
| AllGroupDmsFailed (fail_count : nat).

Inductive exn :=
| PairingError (why : pairing_failure)
| KeyError (key : string)
| TypeError
| AttributeError
| ValueError
| IndexError
| SlackClientError.

Inductive result (A : Type) :=
| Ok (a : A)
| Raise (e : exn).
Arguments Ok {A} a.
Arguments Raise {A} e.

#[global] Instance result_ret : MRet result := λ A a, Ok a.
#[global] Instance result_bind : MBind result := λ A B f m,
  match m with
  | Ok a => f a
  | Raise e => Raise e
  end.

(** [bool(v)]. *)
Definition truthy (v : pyval) : bool :=
  match v with
  | VNone => false
  | VBool b => b
  | VInt z => negb (z =? 0)%Z
  | VStr s => negb (String.eqb s "")
  | VList l => negb (bool_decide (length l = 0))
  | VDict d => negb (bool_decide (size d = 0))
  end.

(** [v.get(key, default)]: only a dict has the method. *)
Definition py_get (v : pyval) (key : string) (default : pyval) : result pyval :=
  match v with
  | VDict d => Ok (match d !! key with Some x => x | None => default end)
  | _ => Raise AttributeError
  end.

(** [v[key]] with a string key. *)
Definition py_getitem (v : pyval) (key : string) : result pyval :=
  match v with
  | VDict d =>
      match d !! key with
      | Some x => Ok x
      | None => Raise (KeyError key)
      end
  | _ => Raise TypeError
  end.

Definition chars (s : string) : list pyval :=
  (λ c, VStr (String c EmptyString)) <$> String.list_ascii_of_string s.

(** The elements [for x in v] runs over.  A dict yields its keys; their
    order is not represented in [gmap] (the decoder cannot observe it: every
    key is a string, and subscripting a string with ['user1'] raises). *)
Definition py_iter (v : pyval) : result (list pyval) :=
  match v with
  | VList l => Ok l
  | VDict d => Ok (VStr <$> (map_to_list d).*1)
  | VStr s => Ok (chars s)
  | _ => Raise TypeError
  end.

(** [v != s] for a string literal [s]. *)
Definition py_ne_str (v : pyval) (s : string) : bool :=
  match v with
  | VStr s' => negb (String.eqb s' s)
  | _ => true
  end.

(** ** History decoder *)

Abbreviation PairListV := (list (pyval * pyval)).
Abbreviation PairHistoryV := (list PairListV).

Definition marker : string := "random_coffee_pairs".

(** The tuple [(pair['user1'], pair['user2'])]. *)
Definition decode_pair (pair : pyval) : result (pyval * pyval) :=
  user1 ← py_getitem pair "user1";
  user2 ← py_getitem pair "user2";
  Ok (user1, user2).

(** [[f(x) for x in l]]: the items are evaluated in order, and the first
    exception ends the evaluation. *)
Fixpoint comprehension {A B : Type} (f : A → result B) (l : list A) : result (list B) :=
  match l with
  | [] => Ok []
  | x :: l' =>
      y ← f x;
      ys ← comprehension f l';
      Ok (y :: ys)
  end.

(** One iteration of [for message in messages]; [continue] leaves
    [previous_pairs] as it is. *)
Definition parse_message (previous_pairs : PairHistoryV) (message : pyval)
  : result PairHistoryV :=
  metadata ← py_get message "metadata" VNone;
  if negb (truthy metadata) then Ok previous_pairs
  else
    event_type ← py_get metadata "event_type" VNone;
    if py_ne_str event_type marker then Ok previous_pairs
    else
      event_payload ← py_get metadata "event_payload" (VDict ∅);
      pairs_data ← py_get event_payload "pairs" (VList []);
      if truthy pairs_data then
        items ← py_iter pairs_data;
        pair_list ← comprehension decode_pair items;
        Ok (previous_pairs ++ [pair_list])
      else Ok previous_pairs.

Fixpoint parse_loop (messages : list pyval) (previous_pairs : PairHistoryV)
  : result PairHistoryV :=
  match messages with
  | [] => Ok previous_pairs
  | message :: rest =>
      previous_pairs' ← parse_message previous_pairs message;
      parse_loop rest previous_pairs'
  end.

(** [None] of [Optional[PairHistory]] is [None] here. *)
Definition history_of (previous_pairs : PairHistoryV) : option PairHistoryV :=
  match previous_pairs with
  | [] => None
  | _ => Some previous_pairs
  end.

Definition parse_previous_pairs_from_metadata (messages : list pyval)
  : result (option PairHistoryV) :=
  previous_pairs ← parse_loop messages [];
  Ok (history_of previous_pairs).

(** *** Shapes of history records

    The records the decoder is specified on, in the words of its contract:
    a record without the marker is [unrelated]; a record with the marker
    whose payload names no pairs is described by [no_pairs]; a record with
    the marker and a non-empty list of well-formed entries stands for the
    round [record_round] gives. *)

Inductive unrelated : pyval → Prop :=
| no_metadata d :
    d !! "metadata" = None → unrelated (VDict d)
| falsy_metadata d v :
    d !! "metadata" = Some v → truthy v = false → unrelated (VDict d)
| other_event_type d md :
    d !! "metadata" = Some (VDict md) →
    md !! "event_type" ≠ Some (VStr marker) → unrelated (VDict d).

Inductive no_pairs : gmap string pyval → Prop :=
| missing_event_payload md :
    md !! "event_payload" = None → no_pairs md
| missing_pairs md payload :
    md !! "event_payload" = Some (VDict payload) →
    payload !! "pairs" = None → no_pairs md
| empty_pairs md payload v :
    md !! "event_payload" = Some (VDict payload) →
    payload !! "pairs" = Some v → truthy v = false → no_pairs md.

(** The entry is a dict with both user fields. *)
Definition entry_of (entry : pyval) (p : pyval * pyval) : Prop :=
  ∃ d, entry = VDict d ∧ d !! "user1" = Some p.1 ∧ d !! "user2" = Some p.2.

Inductive record_round : pyval → option PairListV → Prop :=
| round_unrelated m : unrelated m → record_round m None
| round_no_pairs d md :
    d !! "metadata" = Some (VDict md) →
    md !! "event_type" = Some (VStr marker) →
    no_pairs md → record_round (VDict d) None
| round_matching d md payload entries pair_list :
    d !! "metadata" = Some (VDict md) →
    md !! "event_type" = Some (VStr marker) →
    md !! "event_payload" = Some (VDict payload) →
    payload !! "pairs" = Some (VList entries) →
    entries ≠ [] →
    Forall2 entry_of entries pair_list →
    record_round (VDict d) (Some pair_list).

(** ** Round encoder *)

Abbreviation PairList := (list (string * string)).
Abbreviation PairHistory := (list PairList).

(** [{"user1": p1, "user2": p2}]. *)
Definition pair_entry (p : string * string) : pyval :=
  VDict {[ "user1" := VStr p.1; "user2" := VStr p.2 ]}.

(** [now] is the string [datetime.datetime.now().isoformat()] evaluates to. *)
Definition pairs_to_metadata (pairs : PairList) (now : string) : pyval :=
  VDict {[ "pairs" := VList (pair_entry <$> pairs);
           "timestamp" := VStr now;
           "count" := VInt (Z.of_nat (length pairs)) ]}.

(** [metadata_formatted] of [SlackClient.post_message_with_metadata]. *)
Definition metadata_formatted (metadata : pyval) : pyval :=
  VDict {[ "event_type" := VStr marker; "event_payload" := metadata ]}.

(** A pair of member identifiers as the Python tuple of two [str]. *)
Definition pair_value (p : string * string) : pyval * pyval :=
  (VStr p.1, VStr p.2).

(** ** Avoid-sets *)

(** The body of [for p1, p2 in pair_set], for the [member] of the enclosing
    loop.  [members_previous_matches[member]] is looked up for a [member]
    that the dict comprehension has just made a key, so the subscript cannot
    raise; [alter] updates the set in place. *)
Definition record_pair (member : string) (members_previous_matches : gmap string (gset string))
    (p : string * string) : gmap string (gset string) :=
  let '(p1, p2) := p in
  if decide (p1 = member) then alter (λ s, s ∪ {[p2]}) member members_previous_matches
  else if decide (p2 = member) then alter (λ s, s ∪ {[p1]}) member members_previous_matches
  else members_previous_matches.

Definition build_previous_matches_dict (members : list string)
    (previous_pairs : option PairHistory) : gmap string (gset string) :=
  let members_previous_matches : gmap string (gset string) :=
    foldl (λ d member, <[member := ∅]> d) ∅ members in
  match previous_pairs with
  | None => members_previous_matches
  | Some [] => members_previous_matches
  | Some pair_sets =>
      foldl (λ d member,
               foldl (λ d pair_set, foldl (record_pair member) d pair_set) d pair_sets)
            members_previous_matches members
  end.

(** ** The random source *)

(** [random.shuffle] and [random.choice] of the module-level generator,
    threaded as a state [R].  [shuffle l] is the content of the list after
    the in-place shuffle; [choice x l] draws from the non-empty sequence
    [x :: l].  The two laws are all that is known of them. *)
Class RandomSource (R : Type) := {
  shuffle : list string → R → list string * R;
  choice : string → list string → R → string * R;
  shuffle_Permutation l r : (shuffle l r).1 ≡ₚ l;
  choice_elem x l r : (choice x l r).1 ∈ x :: l
}.

(** A source that reads its draws from a tape of numbers. *)
Definition draw (n : nat) (tape : list nat) : nat * list nat :=
  match tape with
  | [] => (0, [])
  | v :: tape' => (v mod n, tape')
  end.

Fixpoint tape_shuffle (l : list string) (tape : list nat) : list string * list nat :=
  match l with
  | [] => ([], tape)
  | x :: l' =>
      let '(s, tape1) := tape_shuffle l' tape in
      let '(k, tape2) := draw (S (length s)) tape1 in
      (take k s ++ x :: drop k s, tape2)
  end.

Definition tape_choice (x : string) (l : list string) (tape : list nat)
  : string * list nat :=
  let '(k, tape') := draw (S (length l)) tape in
  (nth k (x :: l) x, tape').

#[global, refine] Instance tape_source : RandomSource (list nat) := {|
  shuffle := tape_shuffle;
  choice := tape_choice
|}.
Proof.
  - intros l tape. revert tape; induction l as [|x l IH]; intros tape; simpl; [done|].
    specialize (IH tape). destruct (tape_shuffle l tape) as [s tape1]; simpl in IH.
    destruct (draw (S (length s)) tape1) as [k tape2]; simpl.
    rewrite <- Permutation_middle, take_drop. by constructor.
  - intros x l tape. unfold tape_choice.
    assert ((draw (S (length l)) tape).1 < S (length l)) as Hk.
    { destruct tape as [|v tape']; unfold draw; cbn [fst]; [lia|].
      apply Nat.mod_upper_bound; lia. }
    destruct (draw (S (length l)) tape) as [k tape']; cbn [fst] in *.
    apply list_elem_of_In, (nth_In (x :: l) x); simpl; lia.
Defined.

(** ** Match engine *)

(** [l.pop()]: the last item and the list without it. *)
Fixpoint pop (l : list string) : option (list string * string) :=
  match l with
  | [] => None
  | [x] => Some ([], x)
  | x :: l' =>
      match pop l' with
      | Some (rest, y) => Some (x :: rest, y)
      | None => None
      end
  end.

(** [l.remove(x)]: the list without the first item equal to [x]; [None]
    when there is none ([ValueError]). *)
Fixpoint list_remove (x : string) (l : list string) : option (list string) :=
  match l with
  | [] => None
  | y :: l' =>
      if decide (y = x) then Some l'
      else match list_remove x l' with
           | Some rest => Some (y :: rest)
           | None => None
           end
  end.

Section engine.
Context {R : Type} `{!RandomSource R}.

Definition find_best_match (member1 : string) (available_members : list string)
    (members_previous_matches : gmap string (gset string)) (r : R)
  : result string * R :=
  match available_members with
  | [] => (Raise (PairingError (NoAvailableMembers member1)), r)
  | a :: rest =>
      match members_previous_matches !! member1 with
      | None => (Raise (KeyError member1), r)
      | Some previous =>
          match filter (λ member, member ∉ previous) available_members with
          | c :: cs => let '(m, r') := choice c cs r in (Ok m, r')
          | [] => let '(m, r') := choice a rest r in (Ok m, r')
          end
      end
  end.

(** One run of the body of [while available], on the content of
    [available]: the content after it and the extended [pairs]. *)
Definition pair_step (first_member : string)
    (members_previous_matches : gmap string (gset string))
    (available : list string) (pairs : PairList) (r : R)
  : result (list string * PairList) * R :=
  if decide (2 ≤ length available) then
    match pop available with
    | None => (Raise IndexError, r)
    | Some (available1, member1) =>
        match find_best_match member1 available1 members_previous_matches r with
        | (Raise e, r1) => (Raise e, r1)
        | (Ok member2, r1) =>
            match list_remove member2 available1 with
            | None => (Raise ValueError, r1)
            | Some available2 => (Ok (available2, pairs ++ [(member1, member2)]), r1)
            end
        end
    end
  else
    match find_best_match first_member available members_previous_matches r with
    | (Raise e, r1) => (Raise e, r1)
    | (Ok member2, r1) =>
        match list_remove member2 available with
        | None => (Raise ValueError, r1)
        | Some available1 => (Ok (available1, pairs ++ [(first_member, member2)]), r1)
        end
    end.

(** [while available: ...], at most [fuel] runs of the body; [None] when
    the body would have to run once more. *)
Fixpoint pair_loop (fuel : nat) (first_member : string)
    (members_previous_matches : gmap string (gset string))
    (available : list string) (pairs : PairList) (r : R)
  : option (result PairList * R) :=
  match available with
  | [] => Some (Ok pairs, r)
  | _ :: _ =>
      match fuel with
      | 0 => None
      | S fuel' =>
          match pair_step first_member members_previous_matches available pairs r with
          | (Raise e, r1) => Some (Raise e, r1)
          | (Ok (available1, pairs1), r1) =>
              pair_loop fuel' first_member members_previous_matches available1 pairs1 r1
          end
      end
  end.

(** The loop is given as many runs as [available] has items. *)
Definition generate_pairs (members : list string) (previous_pairs : option PairHistory)
    (r : R) : option (result PairList * R) :=
  match members with
  | [] => Some (Ok [], r)
  | _ :: _ =>
      let '(available, r1) := shuffle members r in
      let members_previous_matches := build_previous_matches_dict members previous_pairs in
      match last available with
      | None => Some (Raise IndexError, r1)
      | Some first_member =>
          pair_loop (length available) first_member members_previous_matches available [] r1
      end
  end.
End engine.

(** The member identifiers of a round, pair after pair. *)
Definition unpacked_members (pairs : PairList) : list string :=
  pairs ≫= λ pair, [pair.1; pair.2].

Definition occurrences (member : string) (pairs : PairList) : nat :=
  length (filter (λ name, name = member) (unpacked_members pairs)).

(** ** The match engine on the object store

    [generate_pairs] again, with its arguments passed as Python passes them:
    as references to objects in a store.  [members.copy()] allocates, and
    [random.shuffle], [pop] and [remove] update the object their receiver
    refers to.  [pairs] and the avoid-set dict are built from fresh literals
    inside the call and are kept as values. *)

Definition loc : Type := nat.

Inductive pyobj :=
| ListObj (items : list string)
| HistoryObj (rounds : PairHistory).

Abbreviation heap := (gmap loc pyobj).

Definition read_list (σ : heap) (l : loc) : result (list string) :=
  match σ !! l with
  | Some (ListObj items) => Ok items
  | _ => Raise TypeError
  end.

Definition read_history (σ : heap) (previous_pairs : option loc)
  : result (option PairHistory) :=
  match previous_pairs with
  | None => Ok None
  | Some l =>
      match σ !! l with
      | Some (HistoryObj rounds) => Ok (Some rounds)
      | _ => Raise TypeError
      end
  end.

(** [l.copy()]: a new list object with the same items. *)
Definition heap_copy (l : loc) (σ : heap) : result loc * heap :=
  match read_list σ l with
  | Raise e => (Raise e, σ)
  | Ok items => let l' := fresh (dom σ) in (Ok l', <[l' := ListObj items]> σ)
  end.

(** [l.pop()], in place. *)
Definition heap_pop (l : loc) (σ : heap) : result string * heap :=
  match read_list σ l with
  | Raise e => (Raise e, σ)
  | Ok items =>
      match pop items with
      | None => (Raise IndexError, σ)
      | Some (rest, x) => (Ok x, <[l := ListObj rest]> σ)
      end
  end.

(** [l.remove(x)], in place. *)
Definition heap_remove (l : loc) (x : string) (σ : heap) : result unit * heap :=
  match read_list σ l with
  | Raise e => (Raise e, σ)
  | Ok items =>
      match list_remove x items with
      | None => (Raise ValueError, σ)
      | Some rest => (Ok (), <[l := ListObj rest]> σ)
      end
  end.

Section engine_heap.
Context {R : Type} `{!RandomSource R}.

(** [random.shuffle(l)], in place. *)
Definition heap_shuffle (l : loc) (σ : heap) (r : R) : result unit * heap * R :=
  match read_list σ l with
  | Raise e => (Raise e, σ, r)
  | Ok items => let '(items', r') := shuffle items r in (Ok (), <[l := ListObj items']> σ, r')
  end.

(** [find_best_match] is handed the reference and only reads through it. *)
Definition find_best_match_heap (member1 : string) (available_members : loc)
    (members_previous_matches : gmap string (gset string)) (σ : heap) (r : R)
  : result string * R :=
  match read_list σ available_members with
  | Raise e => (Raise e, r)
  | Ok items => find_best_match member1 items members_previous_matches r
  end.

Definition pair_step_heap (first_member : string)
    (members_previous_matches : gmap string (gset string))
    (available : loc) (pairs : PairList) (σ : heap) (r : R)
  : result PairList * heap * R :=
  match read_list σ available with
  | Raise e => (Raise e, σ, r)
  | Ok items =>
      if decide (2 ≤ length items) then
        match heap_pop available σ with
        | (Raise e, σ1) => (Raise e, σ1, r)
        | (Ok member1, σ1) =>
            match find_best_match_heap member1 available members_previous_matches σ1 r with
            | (Raise e, r1) => (Raise e, σ1, r1)
            | (Ok member2, r1) =>
                match heap_remove available member2 σ1 with
                | (Raise e, σ2) => (Raise e, σ2, r1)
                | (Ok _, σ2) => (Ok (pairs ++ [(member1, member2)]), σ2, r1)
                end
            end
        end
      else
        match find_best_match_heap first_member available members_previous_matches σ r with
        | (Raise e, r1) => (Raise e, σ, r1)
        | (Ok member2, r1) =>
            match heap_remove available member2 σ with
            | (Raise e, σ1) => (Raise e, σ1, r1)
            | (Ok _, σ1) => (Ok (pairs ++ [(first_member, member2)]), σ1, r1)
            end
        end
  end.

Fixpoint pair_loop_heap (fuel : nat) (first_member : string)
    (members_previous_matches : gmap string (gset string))
    (available : loc) (pairs : PairList) (σ : heap) (r : R)
  : option (result PairList * heap * R) :=
  match read_list σ available with
  | Raise e => Some (Raise e, σ, r)
  | Ok [] => Some (Ok pairs, σ, r)
  | Ok (_ :: _) =>
      match fuel with
      | 0 => None
      | S fuel' =>
          match pair_step_heap first_member members_previous_matches available pairs σ r with
          | (Raise e, σ1, r1) => Some (Raise e, σ1, r1)
          | (Ok pairs1, σ1, r1) =>
              pair_loop_heap fuel' first_member members_previous_matches available pairs1 σ1 r1
          end
      end
  end.

(** [build_previous_matches_dict] reads both arguments through their
    references; the dict it returns is a new object. *)
Definition build_previous_matches_dict_heap (members : loc) (previous_pairs : option loc)
    (σ : heap) : result (gmap string (gset string)) :=
  match read_list σ members with
  | Raise e => Raise e
  | Ok items =>
      match read_history σ previous_pairs with
      | Raise e => Raise e
      | Ok history => Ok (build_previous_matches_dict items history)
      end
  end.

Definition generate_pairs_heap (members : loc) (previous_pairs : option loc)
    (σ : heap) (r : R) : option (result PairList * heap * R) :=
  match read_list σ members with
  | Raise e => Some (Raise e, σ, r)
  | Ok [] => Some (Ok [], σ, r)
  | Ok (_ :: _) =>
      match heap_copy members σ with
      | (Raise e, σ1) => Some (Raise e, σ1, r)
      | (Ok available, σ1) =>
          match heap_shuffle available σ1 r with
          | (Raise e, σ2, r1) => Some (Raise e, σ2, r1)
          | (Ok _, σ2, r1) =>
              match build_previous_matches_dict_heap members previous_pairs σ2 with
              | Raise e => Some (Raise e, σ2, r1)
              | Ok members_previous_matches =>
                  match read_list σ2 available with
                  | Raise e => Some (Raise e, σ2, r1)
                  | Ok shuffled =>
                      match last shuffled with
                      | None => Some (Raise IndexError, σ2, r1)
                      | Some first_member =>
                          pair_loop_heap (length shuffled) first_member
                            members_previous_matches available [] σ2 r1
                      end
                  end
              end
          end
      end
  end.
End engine_heap.

(** [σ'] differs from [σ] at most in the object at [l]. *)
Definition only_changes (l : loc) (σ σ' : heap) : Prop :=
  ∀ l', l' ≠ l → σ' !! l' = σ !! l'.

(** ** Notification dispatcher *)

Definition nl : string := String (Ascii.ascii_of_nat 10) EmptyString.

(** The f-string of the announcement. *)
Definition dm_message (pair : string * string) (channel_id : string) : string :=
  String.append "Hello <@" (String.append pair.1 (String.append "> and <@"
    (String.append pair.2 (String.append ">" (String.append nl
      (String.append "You've been randomly selected for <#" (String.append channel_id
        (String.append ">!" (String.append nl "Take some time to meet soon."))))))))).

(** The injected [slack_client]: [send_group_dm] returns [True] or raises
    an [Exception] (what [except Exception] catches), and may change the
    state [C] of the world behind it. *)
Class SlackClient (C : Type) := {
  send_group_dm : string * string → string → C → result bool * C
}.

Section dispatcher.
Context {C : Type} `{!SlackClient C}.

(** [for pair in pairs], with the two counters. *)
Fixpoint notify_loop (pairs : PairList) (channel_id : string)
    (success_count fail_count : nat) (c : C) : nat * nat * C :=
  match pairs with
  | [] => (success_count, fail_count, c)
  | p :: rest =>
      match send_group_dm p (dm_message p channel_id) c with
      | (Ok _, c') => notify_loop rest channel_id (S success_count) fail_count c'
      | (Raise _, c') => notify_loop rest channel_id success_count (S fail_count) c'
      end
  end.

Definition send_pair_notifications (pairs : PairList) (channel_id : string) (c : C)
  : result unit * C :=
  let '(success_count, fail_count, c') := notify_loop pairs channel_id 0 0 c in
  if decide (0 < fail_count ∧ success_count = 0)
  then (Raise (PairingError (AllGroupDmsFailed fail_count)), c')
  else (Ok (), c').
End dispatcher.

(** A call of [send_group_dm] as an observer outside the client sees it. *)
Record delivery := Delivery {
  delivery_pair : string * string;
  delivery_message : string;
  delivery_outcome : result bool
}.

(** Any client, with a log of the calls made to it. *)
#[global] Instance recording_client {C : Type} `{!SlackClient C}
  : SlackClient (C * list delivery) := {|
  send_group_dm p message '(c, log) :=
    let '(outcome, c') := send_group_dm p message c in
    (outcome, (c', log ++ [Delivery p message outcome]))
|}.

(** A client that plays back a script of outcomes: [true] delivers,
    [false] fails; at the end of the script every call delivers. *)
#[global] Instance scripted_client : SlackClient (list bool) := {|
  send_group_dm p message script :=
    match script with
    | [] => (Ok true, [])
    | true :: script' => (Ok true, script')
    | false :: script' => (Raise SlackClientError, script')
    end
|}.

Definition failed (d : delivery) : Prop :=
  match delivery_outcome d with
  | Ok _ => False
  | Raise _ => True
  end.

#[global] Instance failed_dec d : Decision (failed d).
Proof. unfold failed. destruct (delivery_outcome d); apply _. Defined.

(** What a call was made with. *)
Definition announced (d : delivery) : (string * string) * string :=
  (delivery_pair d, delivery_message d).

(** What the dispatcher calls the notifier with for a pair. *)
Definition announcement (channel_id : string) (p : string * string)
  : (string * string) * string :=
  (p, dm_message p channel_id).

(** ** History, seen from the match engine *)

(** [x] was paired with [member] in some round of the history. *)
Definition matched_before (previous_pairs : option PairHistory) (member x : string) : Prop :=
  ∃ pair_set, pair_set ∈ default [] previous_pairs
    ∧ ((member, x) ∈ pair_set ∨ (x, member) ∈ pair_set).

(** The history with the two sides of every pair exchanged. *)
Definition flip_history (previous_pairs : option PairHistory) : option PairHistory :=
  (λ pair_sets : PairHistory,
     (λ pair_set : PairList, (λ p : string * string, (p.2, p.1)) <$> pair_set) <$> pair_sets)
  <$> previous_pairs.

(** ** Stored rounds *)

(** Two decoded histories, one after the other. *)
Definition join_histories (h1 h2 : option PairHistoryV) : option PairHistoryV :=
  history_of (default [] h1 ++ default [] h2).

(** A message of the memory channel that carries a round: the metadata
    that [post_message_with_metadata] attaches to it, among whatever other
    fields Slack returns. *)
Definition stored_message (record : PairList * string * gmap string pyval) : pyval :=
  let '(pairs, now, fields) := record in
  VDict (<["metadata" := metadata_formatted (pairs_to_metadata pairs now)]> fields).

(** The rounds of the stored messages that have pairs, oldest first. *)
Definition stored_rounds (records : list (PairList * string * gmap string pyval))
  : PairHistory :=
  filter (λ pairs : PairList, pairs ≠ [])
    ((λ record : PairList * string * gmap string pyval, record.1.1) <$> records).

(** ** Round summary *)

(** [enumerate(l)], counting from [start]. *)
Fixpoint enumerate_from {A : Type} (start : nat) (l : list A) : list (nat * A) :=
  match l with
  | [] => []
  | x :: l' => (start, x) :: enumerate_from (S start) l'
  end.

(** The line [f" {number}. <@{p1}> and <@{p2}>\n"]. *)
Definition pair_line (number : nat) (p : string * string) : string :=
  " " +:+ pretty number +:+ ". <@" +:+ p.1 +:+ "> and <@" +:+ p.2 +:+ ">" +:+ nl.

(** The list [pair_lines] of [format_pairs_message]. *)
Definition pair_lines (pairs : PairList) : list string :=
  (λ ip : nat * (string * string), pair_line (ip.1 + 1) ip.2) <$> enumerate_from 0 pairs.

Definition footer (lookback_days : Z) : string :=
  "An uneven number of members results in one person getting two coffee matches. "
  +:+ "Matches from the last " +:+ pretty lookback_days
  +:+ " days considered to avoid matching the "
  +:+ "same members several times in the time period.".

Definition format_pairs_message (pairs : PairList) (magical_text : string)
    (lookback_days : Z) : string :=
  match pairs with
  | [] => ""
  | _ :: _ =>
      (magical_text +:+ ":" +:+ nl) +:+ String.concat "" (pair_lines pairs)
      +:+ footer lookback_days
  end.

(** ** Configuration *)

Record Config := {
  slack_token : string;
  channel_name : string;
  private_channel_name : string;
  pairs_are_public : bool;
  chan_names_are_ids : bool;
  lookback_days : Z;
  magical_text : string
}.

(** The messages [ConfigurationError] is raised with in [from_env]; the
    invalid [LOOKBACK_DAYS] message quotes the [ValueError], either that of
    [int] or the one raised for a value below 1. *)
Inductive ConfigurationError :=
| VariableRequired (name : string)
| LookbackDaysInvalid (below_one : bool).

Inductive loaded :=
| Loaded (config : Config)
| ConfigurationErrorRaised (why : ConfigurationError).

Section config.
(** [int(s)] of a string: the integer, or [None] for a [ValueError]. *)
Variable py_int : string → option Z.
(** [s.lower()]. *)
Variable py_lower : string → string.

(** [not s] for the [Optional[str]] that [os.getenv] returns. *)
Definition unset (value : option string) : bool :=
  match value with
  | None => true
  | Some s => String.eqb s ""
  end.

Definition flag (value : string) : bool :=
  bool_decide (py_lower value ∈ ["true"; "t"; "yes"; "y"; "1"]).

(** [env] is the process environment after [load_dotenv]. *)
Definition from_env (env : gmap string string) : loaded :=
  let slack_token := env !! "SLACK_API_TOKEN" in
  if unset slack_token then ConfigurationErrorRaised (VariableRequired "SLACK_API_TOKEN")
  else
  let channel_name := env !! "CHANNEL_NAME" in
  if unset channel_name then ConfigurationErrorRaised (VariableRequired "CHANNEL_NAME")
  else
  let lookback_days_str := env !! "LOOKBACK_DAYS" in
  if unset lookback_days_str then ConfigurationErrorRaised (VariableRequired "LOOKBACK_DAYS")
  else
  match py_int (default "" lookback_days_str) with
  | None => ConfigurationErrorRaised (LookbackDaysInvalid false)
  | Some lookback_days =>
      if decide (lookback_days < 1)%Z
      then ConfigurationErrorRaised (LookbackDaysInvalid true)
      else
      let magical_text := env !! "MAGICAL_TEXT" in
      if unset magical_text then ConfigurationErrorRaised (VariableRequired "MAGICAL_TEXT")
      else
      Loaded {|
        slack_token := default "" slack_token;
        channel_name := default "" channel_name;
        private_channel_name :=
          default "randomcoffebotprivatechannelformemory"
            (env !! "PRIVATE_CHANNEL_NAME_FOR_MEMORY");
        pairs_are_public := flag (default "False" (env !! "PAIRS_ARE_PUBLIC"));
        chan_names_are_ids := flag (default "False" (env !! "CHAN_NAMES_ARE_IDS"));
        lookback_days := lookback_days;
        magical_text := default "" magical_text
      |}
  end.
End config.

(** A stand-in for [int] on the one text the example needs. *)
Definition int_of_28 (s : string) : option Z :=
  if String.eqb s "28" then Some 28%Z else None.

(** ** The Slack client wrapper

    [SlackClient] of [slack_client.py] wraps the [WebClient] of the Slack
    SDK.  The SDK is not part of the repository: a call of one of its
    methods is an operation on the state [W] of the world that returns a
    response, raises [SlackApiError], or raises something else, and what
    the wrapper reads off a response is an operation on the response. *)

Inductive api_outcome (A : Type) :=
| Returned (a : A)
| RaisedSlackApiError
| RaisedOther (e : exn).
Arguments Returned {A} a.
Arguments RaisedSlackApiError {A}.
Arguments RaisedOther {A} e.

Class WebClient (W : Type) := {
  response : Type;
  cursor : Type;
  timestamp : Type;
  (** [client.auth_test()] *)
  auth_test : W → api_outcome response * W;
  (** [client.conversations_list(limit=200, cursor=c, types=...)] *)
  conversations_list : option cursor → W → api_outcome response * W;
  (** [client.conversations_history(channel=..., limit=200, oldest=...,
      newest=..., include_all_metadata=True, cursor=c)] *)
  conversations_history :
    string → timestamp → timestamp → option cursor → W → api_outcome response * W;
  (** [test["user_id"]] *)
  user_id_of : response → api_outcome pyval;
  (** the items of [response["channels"]] *)
  channels_of : response → api_outcome (list pyval);
  (** the items of [response["messages"]] *)
  messages_of : response → api_outcome (list pyval);
  (** [bool(response.get('has_more', False))] *)
  has_more_of : response → api_outcome bool;
  (** [response['response_metadata']['next_cursor']] *)
  next_cursor_of : response → api_outcome cursor;
  (** [response.get('response_metadata') is not None and
      response['response_metadata'].get('next_cursor')]: [None] when the
      value is falsy, else the cursor, which is the value that
      [response['response_metadata']['next_cursor']] reads again *)
  more_cursor_of : response → api_outcome (option cursor)
}.

(** What leaves a [try: ... except SlackApiError: raise SlackClientError]. *)
Definition wrap_api_errors {A : Type} (o : api_outcome A) : result A :=
  match o with
  | Returned a => Ok a
  | RaisedSlackApiError => Raise SlackClientError
  | RaisedOther e => Raise e
  end.

(** [v in d.keys()] for a dict with string keys: the key is hashed first. *)
Definition py_in_keys {V : Type} (v : pyval) (d : gmap string V) : result bool :=
  match v with
  | VStr s => Ok (bool_decide (is_Some (d !! s)))
  | VList _ | VDict _ => Raise TypeError
  | _ => Ok false
  end.

(** The body of [for c in channel_list]: [c.get('name')] is a key only
    when it is a string, and the assignment then stores [c['id']] under it. *)
Definition record_channel (chan_name_to_id : gmap string pyval) (c : pyval)
  : result (gmap string pyval) :=
  name ← py_get c "name" VNone;
  known ← py_in_keys name chan_name_to_id;
  if (known : bool) then
    id ← py_getitem c "id";
    match name with
    | VStr s => Ok (<[s := id]> chan_name_to_id)
    | _ => Ok chan_name_to_id
    end
  else Ok chan_name_to_id.

Fixpoint record_channels (chan_name_to_id : gmap string pyval) (channel_list : list pyval)
  : result (gmap string pyval) :=
  match channel_list with
  | [] => Ok chan_name_to_id
  | c :: rest =>
      chan_name_to_id' ← record_channel chan_name_to_id c;
      record_channels chan_name_to_id' rest
  end.

(** [None in d.values()]. *)
Definition is_None (v : pyval) : bool :=
  match v with
  | VNone => true
  | _ => false
  end.

Definition has_none_value (d : gmap string pyval) : bool :=
  existsb (λ kv : string * pyval, is_None kv.2) (map_to_list d).

(** [[msg for msg in l if msg.get("user") == bot_user_id]]. *)
Fixpoint from_user (bot_user_id : string) (conversation_history : list pyval)
  : result (list pyval) :=
  match conversation_history with
  | [] => Ok []
  | msg :: rest =>
      user ← py_get msg "user" VNone;
      kept ← from_user bot_user_id rest;
      Ok (if py_ne_str user bot_user_id then kept else msg :: kept)
  end.

(** [l[:n]]: a negative [n] counts from the end. *)
Definition py_slice_to {A : Type} (l : list A) (n : Z) : list A :=
  if decide (0 ≤ n)%Z then take (Z.to_nat n) l
  else take (Z.to_nat (Z.of_nat (length l) + n)) l.

Section slack_client.
Context {W : Type} `{!WebClient W}.

(** [get_bot_user_id]; [self._bot_user_id] is the first component of the
    state. *)
Definition get_bot_user_id (self : pyval * W) : result pyval * (pyval * W) :=
  let '(bot_user_id, w) := self in
  if truthy bot_user_id then (Ok bot_user_id, self)
  else
    match auth_test w with
    | (Returned test, w1) =>
        match user_id_of test with
        | Returned user_id => (Ok user_id, (user_id, w1))
        | RaisedSlackApiError => (Raise SlackClientError, (bot_user_id, w1))
        | RaisedOther e => (Raise e, (bot_user_id, w1))
        end
    | (RaisedSlackApiError, w1) => (Raise SlackClientError, (bot_user_id, w1))
    | (RaisedOther e, w1) => (Raise e, (bot_user_id, w1))
    end.

(** [while has_more: ...] of [get_channels_id], inside the [try]; at most
    [fuel] pages. *)
Fixpoint resolve_channels (fuel : nat) (chan_name_to_id : gmap string pyval)
    (next_cursor : option cursor) (w : W)
  : option (api_outcome (gmap string pyval) * W) :=
  match fuel with
  | 0 => None
  | S fuel' =>
      match conversations_list next_cursor w with
      | (Returned response, w1) =>
          match channels_of response with
          | Returned channel_list =>
              match record_channels chan_name_to_id channel_list with
              | Raise e => Some (RaisedOther e, w1)
              | Ok chan_name_to_id1 =>
                  if negb (has_none_value chan_name_to_id1)
                  then Some (Returned chan_name_to_id1, w1)
                  else
                    match more_cursor_of response with
                    | Returned (Some c) => resolve_channels fuel' chan_name_to_id1 (Some c) w1
                    | Returned None => Some (Returned chan_name_to_id1, w1)
                    | RaisedSlackApiError => Some (RaisedSlackApiError, w1)
                    | RaisedOther e => Some (RaisedOther e, w1)
                    end
              end
          | RaisedSlackApiError => Some (RaisedSlackApiError, w1)
          | RaisedOther e => Some (RaisedOther e, w1)
          end
      | (RaisedSlackApiError, w1) => Some (RaisedSlackApiError, w1)
      | (RaisedOther e, w1) => Some (RaisedOther e, w1)
      end
  end.

Definition get_channels_id (fuel : nat) (channels : list string) (chan_names_are_ids : bool)
    (w : W) : option (result (gmap string pyval) * W) :=
  if chan_names_are_ids
  then Some (Ok (list_to_map ((λ chan, (chan, VStr chan)) <$> channels)), w)
  else
    let chan_name_to_id : gmap string pyval :=
      list_to_map ((λ chan, (chan, VNone)) <$> channels) in
    match resolve_channels fuel chan_name_to_id None w with
    | None => None
    | Some (Returned chan_name_to_id1, w1) =>
        if has_none_value chan_name_to_id1
        then Some (Raise SlackClientError, w1)
        else Some (Ok chan_name_to_id1, w1)
    | Some (RaisedSlackApiError, w1) => Some (Raise SlackClientError, w1)
    | Some (RaisedOther e, w1) => Some (Raise e, w1)
    end.

(** [while has_more: ...] of [get_conversation_history]; at most [fuel]
    pages. *)
Fixpoint fetch_history (fuel : nat) (channel_id : string)
    (oldest_timestamp newest_timestamp : timestamp)
    (conversation_history : list pyval) (next_cursor : option cursor) (w : W)
  : option (api_outcome (list pyval) * W) :=
  match fuel with
  | 0 => None
  | S fuel' =>
      match conversations_history channel_id oldest_timestamp newest_timestamp
              next_cursor w with
      | (Returned response, w1) =>
          match messages_of response with
          | Returned messages =>
              let conversation_history1 := conversation_history ++ messages in
              match has_more_of response with
              | Returned true =>
                  match next_cursor_of response with
                  | Returned c =>
                      fetch_history fuel' channel_id oldest_timestamp newest_timestamp
                        conversation_history1 (Some c) w1
                  | RaisedSlackApiError => Some (RaisedSlackApiError, w1)
                  | RaisedOther e => Some (RaisedOther e, w1)
                  end
              | Returned false => Some (Returned conversation_history1, w1)
              | RaisedSlackApiError => Some (RaisedSlackApiError, w1)
              | RaisedOther e => Some (RaisedOther e, w1)
              end
          | RaisedSlackApiError => Some (RaisedSlackApiError, w1)
          | RaisedOther e => Some (RaisedOther e, w1)
          end
      | (RaisedSlackApiError, w1) => Some (RaisedSlackApiError, w1)
      | (RaisedOther e, w1) => Some (RaisedOther e, w1)
      end
  end.

Definition get_conversation_history (fuel : nat) (channel_id : string)
    (oldest_timestamp newest_timestamp : timestamp)
    (bot_user_id : option string) (max_messages : option Z) (w : W)
  : option (result (list pyval) * W) :=
  match fetch_history fuel channel_id oldest_timestamp newest_timestamp [] None w with
  | None => None
  | Some (Returned conversation_history, w1) =>
      let filtered :=
        match bot_user_id with
        | Some bot =>
            if String.eqb bot "" then Ok conversation_history
            else from_user bot conversation_history
        | None => Ok conversation_history
        end in
      match filtered with
      | Raise e => Some (Raise e, w1)
      | Ok conversation_history1 =>
          match max_messages with
          | Some n =>
              if (n =? 0)%Z then Some (Ok conversation_history1, w1)
              else Some (Ok (py_slice_to conversation_history1 n), w1)
          | None => Some (Ok conversation_history1, w1)
          end
      end
  | Some (RaisedSlackApiError, w1) => Some (Raise SlackClientError, w1)
  | Some (RaisedOther e, w1) => Some (Raise e, w1)
  end.
End slack_client.

(** A [WebClient] that plays back a script of pages: each call returns the
    next page, the items of the page and whether more follow; at the end of
    the script every call raises [SlackApiError]. *)
#[global] Instance scripted_web : WebClient (list (list pyval * bool)) := {|
  response := list pyval * bool;
  cursor := unit;
  timestamp := unit;
  auth_test w :=
    match w with [] => (RaisedSlackApiError, []) | page :: rest => (Returned page, rest) end;
  conversations_list _ w :=
    match w with [] => (RaisedSlackApiError, []) | page :: rest => (Returned page, rest) end;
  conversations_history _ _ _ _ w :=
    match w with [] => (RaisedSlackApiError, []) | page :: rest => (Returned page, rest) end;
  user_id_of page := Returned (default VNone (head page.1));
  channels_of page := Returned page.1;
  messages_of page := Returned page.1;
  has_more_of page := Returned page.2;
  next_cursor_of page := Returned ();
  more_cursor_of page := Returned (if page.2 then Some () else None)
|}.

(** * Properties *)

(** ** History decoder and round encoder *)

Lemma truthy_dict (d : gmap string pyval) k v : d !! k = Some v → truthy (VDict d) = true.
Proof.
  intros Hk. simpl. rewrite bool_decide_eq_false_2; [done|].
  intros Hs%map_size_empty_iff. subst. by rewrite lookup_empty in Hk.
Qed.

Lemma py_ne_str_false v s : py_ne_str v s = false ↔ v = VStr s.
Proof.
  split.
  - destruct v; simpl; try done. intros H%negb_false_iff%String.eqb_eq. by subst.
  - intros ->. simpl. by rewrite String.eqb_refl.
Qed.

Lemma parse_message_unrelated m acc : unrelated m → parse_message acc m = Ok acc.
Proof.
  intros [d Hd | d v Hd Hv | d md Hd Hne]; unfold parse_message; simpl; rewrite Hd; simpl.
  - done.
  - by rewrite Hv.
  - destruct (truthy (VDict md)) eqn:Ht; simpl in *; rewrite Ht; simpl; [|done].
    destruct (py_ne_str _ marker) eqn:Hev; [done|].
    apply py_ne_str_false in Hev. destruct (md !! "event_type") as [v|]; [|done].
    by subst.
Qed.

Lemma parse_message_no_pairs d md acc :
  d !! "metadata" = Some (VDict md) → md !! "event_type" = Some (VStr marker) →
  no_pairs md → parse_message acc (VDict d) = Ok acc.
Proof.
  intros Hd Hev Hno. unfold parse_message. simpl. rewrite Hd. simpl.
  pose proof (truthy_dict _ _ _ Hev) as Ht. simpl in Ht. rewrite Ht. simpl.
  rewrite Hev. simpl.
  destruct Hno as [md Hp | md payload Hp Hq | md payload v Hp Hq Hv]; rewrite Hp; simpl.
  - done.
  - by rewrite Hq.
  - rewrite Hq. by rewrite Hv.
Qed.

Lemma comprehension_decode_pair entries pair_list :
  Forall2 entry_of entries pair_list → comprehension decode_pair entries = Ok pair_list.
Proof.
  induction 1 as [|entry p entries pair_list (d & -> & H1 & H2) _ IH]; [done|].
  cbn [comprehension]. rewrite IH.
  unfold decode_pair. simpl. rewrite H1. simpl. rewrite H2. by destruct p.
Qed.

Lemma parse_message_matching d md payload entries pair_list acc :
  d !! "metadata" = Some (VDict md) →
  md !! "event_type" = Some (VStr marker) →
  md !! "event_payload" = Some (VDict payload) →
  payload !! "pairs" = Some (VList entries) →
  entries ≠ [] →
  Forall2 entry_of entries pair_list →
  parse_message acc (VDict d) = Ok (acc ++ [pair_list]).
Proof.
  intros Hd Hev Hp Hq Hne Hall. unfold parse_message. simpl. rewrite Hd. simpl.
  pose proof (truthy_dict _ _ _ Hev) as Ht. simpl in Ht. rewrite Ht. simpl.
  rewrite Hev. simpl. rewrite Hp. simpl. rewrite Hq.
  destruct entries as [|e entries]; [done|].
  change (truthy (VList (e :: entries))) with true. cbv iota.
  change (py_iter (VList (e :: entries))) with (Ok (e :: entries)).
  cbn [mbind result_bind]. by rewrite (comprehension_decode_pair _ _ Hall).
Qed.

Lemma parse_loop_app before after acc :
  parse_loop (before ++ after) acc = parse_loop before acc ≫= parse_loop after.
Proof.
  revert acc; induction before as [|m before IH]; intros acc; simpl; [done|].
  destruct (parse_message acc m); simpl; [apply IH | done].
Qed.

Lemma parse_loop_skip before m after acc :
  (∀ acc', parse_message acc' m = Ok acc') →
  parse_loop (before ++ m :: after) acc = parse_loop (before ++ after) acc.
Proof.
  intros Hm. rewrite !parse_loop_app.
  destruct (parse_loop before acc) as [acc'|]; simpl; [|done].
  by rewrite Hm.
Qed.

Lemma parse_skip before m after :
  (∀ acc, parse_message acc m = Ok acc) →
  parse_previous_pairs_from_metadata (before ++ m :: after)
  = parse_previous_pairs_from_metadata (before ++ after).
Proof. intros Hm. unfold parse_previous_pairs_from_metadata. by rewrite parse_loop_skip. Qed.

Lemma parse_loop_rounds messages rounds acc :
  Forall2 record_round messages rounds →
  parse_loop messages acc = Ok (acc ++ omap id rounds).
Proof.
  intros Hall; revert acc.
  induction Hall as [|m o messages rounds Hm _ IH]; intros acc; simpl.
  - by rewrite app_nil_r.
  - destruct Hm as [m Hu | d md Hd Hev Hno | d md payload entries pair_list Hd Hev Hp Hq Hne Hent].
    + rewrite parse_message_unrelated by done. simpl. apply IH.
    + rewrite (parse_message_no_pairs _ _ _ Hd Hev Hno). simpl. apply IH.
    + rewrite (parse_message_matching _ _ _ _ _ _ Hd Hev Hp Hq Hne Hent). simpl.
      rewrite IH. by rewrite <- app_assoc.
Qed.

Lemma parse_loop_nonempty messages acc acc' :
  parse_loop messages acc = Ok acc' →
  Forall (λ round, round ≠ []) acc → Forall (λ round, round ≠ []) acc'.
Proof.
  revert acc; induction messages as [|m messages IH]; intros acc; simpl.
  - by intros [= ->].
  - destruct (parse_message acc m) as [acc1|] eqn:Hm; simpl; [|done].
    intros Hloop Hacc. apply (IH _ Hloop). clear IH Hloop.
    unfold parse_message in Hm.
    destruct (py_get m "metadata" VNone) as [metadata|]; simpl in Hm; [|done].
    destruct (negb (truthy metadata)); [by injection Hm as <-|].
    destruct (py_get metadata "event_type" VNone) as [event_type|]; simpl in Hm; [|done].
    destruct (py_ne_str event_type marker); [by injection Hm as <-|].
    destruct (py_get metadata "event_payload" (VDict ∅)) as [event_payload|]; simpl in Hm; [|done].
    destruct (py_get event_payload "pairs" (VList [])) as [pairs_data|]; simpl in Hm; [|done].
    destruct (truthy pairs_data) eqn:Ht; [|by injection Hm as <-].
    destruct (py_iter pairs_data) as [items|] eqn:Hit; simpl in Hm; [|done].
    destruct (comprehension decode_pair items) as [pair_list|] eqn:Hmap; simpl in Hm; [|done].
    injection Hm as <-. apply Forall_app; split; [done|]. constructor; [|done].
    intros ->. destruct items as [|item items].
    + destruct pairs_data as [| | |s|l|dd]; simpl in Hit, Ht; try done.
      * destruct s; simpl in *; done.
      * injection Hit as ->. done.
      * injection Hit as Hk. apply fmap_nil_inv, fmap_nil_inv in Hk.
        apply map_to_list_empty_iff in Hk. subst. done.
    + simpl in Hmap. destruct (decode_pair item); simpl in Hmap; [|done].
      destruct (comprehension decode_pair items); simpl in Hmap; done.
Qed.

Lemma parse_rounds messages rounds :
  Forall2 record_round messages rounds →
  parse_previous_pairs_from_metadata messages = Ok (history_of (omap id rounds)).
Proof.
  intros Hall. unfold parse_previous_pairs_from_metadata.
  by rewrite (parse_loop_rounds _ _ [] Hall).
Qed.

Lemma entries_of_pairs (pairs : PairList) :
  Forall2 entry_of (pair_entry <$> pairs) (pair_value <$> pairs).
Proof.
  induction pairs as [|[p1 p2] pairs IH]; constructor; [|done].
  eexists; split; [reflexivity|]. by split.
Qed.

Lemma stored_round_decodes (pairs : PairList) (fields payload : gmap string pyval) :
  pairs ≠ [] →
  payload !! "pairs" = Some (VList (pair_entry <$> pairs)) →
  parse_previous_pairs_from_metadata
    [VDict (<["metadata" := metadata_formatted (VDict payload)]> fields)]
  = Ok (Some [pair_value <$> pairs]).
Proof.
  intros Hne Hpairs.
  rewrite (parse_rounds _ [Some (pair_value <$> pairs)]); [done|].
  constructor; [|constructor].
  eapply round_matching; [apply lookup_insert_eq|done|done|exact Hpairs| |].
  - by destruct pairs.
  - apply entries_of_pairs.
Qed.

(** C2. A non-empty round, encoded by [pairs_to_metadata], wrapped by the
    transport under the marker and read back from a history of that one
    message, decodes to exactly that round: same pairs, same member order
    in each pair, same pair order.  The other fields of the message, the
    time of the encoding, and (second part) whatever else the payload holds
    besides its pairs do not change the result. *)
Theorem metadata_roundtrip (pairs : PairList) (now : string) (fields : gmap string pyval) :
  pairs ≠ [] →
  parse_previous_pairs_from_metadata
    [VDict (<["metadata" := metadata_formatted (pairs_to_metadata pairs now)]> fields)]
  = Ok (Some [pair_value <$> pairs])
  ∧ ∀ timestamp count : pyval,
      parse_previous_pairs_from_metadata
        [VDict (<["metadata" := metadata_formatted
                   (VDict {[ "pairs" := VList (pair_entry <$> pairs);
                             "timestamp" := timestamp;
                             "count" := count ]})]> fields)]
      = Ok (Some [pair_value <$> pairs]).
Proof.
  intros Hne. split; [|intros timestamp count]; by apply stored_round_decodes.
Qed.

Lemma metadata_roundtrip_witness :
  [("U123", "U456"); ("U789", "U012")] ≠ []
  ∧ parse_previous_pairs_from_metadata
      [VDict (<["metadata" := metadata_formatted
                 (pairs_to_metadata [("U123", "U456"); ("U789", "U012")]
                    "2024-05-06T09:00:00")]> ∅)]
    = Ok (Some [[(VStr "U123", VStr "U456"); (VStr "U789", VStr "U012")]]).
Proof.
  split; [done|].
  apply (metadata_roundtrip [("U123", "U456"); ("U789", "U012")]
           "2024-05-06T09:00:00" ∅); done.
Defined.

(** C7. The decoder skips, wherever it stands in the input, a record that
    has no metadata or whose event type is not the marker; the rounds of the
    result are the rounds of the matching records, in the order of the
    records; and when every record is of the skipped kind the result is
    [None]. *)
Theorem parse_skips_unrelated_keeps_order :
  (∀ before m after, unrelated m →
     parse_previous_pairs_from_metadata (before ++ m :: after)
     = parse_previous_pairs_from_metadata (before ++ after))
  ∧ (∀ messages rounds, Forall2 record_round messages rounds →
       parse_previous_pairs_from_metadata messages = Ok (history_of (omap id rounds)))
  ∧ (∀ messages, Forall unrelated messages →
       parse_previous_pairs_from_metadata messages = Ok None).
Proof.
  split; [|split].
  - intros before m after Hm. apply parse_skip. intros acc.
    by apply parse_message_unrelated.
  - apply parse_rounds.
  - intros messages Hall.
    rewrite (parse_rounds messages (replicate (length messages) None)).
    + by induction (length messages).
    + induction Hall; simpl; constructor; [by constructor | done].
Qed.

Lemma parse_skips_unrelated_keeps_order_witness :
  parse_previous_pairs_from_metadata
    [VDict {[ "text" := VStr "Regular message without metadata" ]};
     VDict {[ "metadata" := VDict {[ "event_type" := VStr "poll_created" ]} ]}]
  = Ok None
  ∧ parse_previous_pairs_from_metadata
      ([VDict {[ "metadata" := metadata_formatted (pairs_to_metadata [("U1", "U2")] "t1") ]}]
       ++ VDict {[ "text" := VStr "unrelated" ]}
       :: [VDict {[ "metadata" := metadata_formatted (pairs_to_metadata [("U3", "U4")] "t2") ]}])
    = parse_previous_pairs_from_metadata
        ([VDict {[ "metadata" := metadata_formatted (pairs_to_metadata [("U1", "U2")] "t1") ]}]
         ++ [VDict {[ "metadata" := metadata_formatted (pairs_to_metadata [("U3", "U4")] "t2") ]}]).
Proof.
  destruct parse_skips_unrelated_keeps_order as (Hskip & _ & Hnone).
  split.
  - apply Hnone. constructor; [apply no_metadata; reflexivity|].
    constructor; [|constructor].
    eapply other_event_type; [reflexivity|]. vm_compute. discriminate.
  - apply Hskip. apply no_metadata. reflexivity.
Defined.

(** C8, as the code has it.  A record with the marker whose [event_payload]
    is missing, or whose payload has no [pairs] list or an empty one, does
    not make the decoder fail: on its own it decodes to [None], and among
    other records the result is the result for the other records. *)
Theorem parse_tolerates_missing_payload before after (d md : gmap string pyval) :
  d !! "metadata" = Some (VDict md) →
  md !! "event_type" = Some (VStr marker) →
  no_pairs md →
  parse_previous_pairs_from_metadata [VDict d] = Ok None
  ∧ parse_previous_pairs_from_metadata (before ++ VDict d :: after)
    = parse_previous_pairs_from_metadata (before ++ after).
Proof.
  intros Hd Hev Hno. split.
  - unfold parse_previous_pairs_from_metadata. simpl.
    by rewrite (parse_message_no_pairs _ _ _ Hd Hev Hno).
  - apply parse_skip. intros acc. by apply (parse_message_no_pairs _ md).
Qed.

Lemma parse_tolerates_missing_payload_witness :
  parse_previous_pairs_from_metadata
    [VDict {[ "metadata" := VDict {[ "event_type" := VStr marker ]} ]}] = Ok None
  ∧ parse_previous_pairs_from_metadata
      ([] ++ VDict {[ "metadata" := VDict {[ "event_type" := VStr marker ]} ]}
          :: [VDict {[ "metadata" := metadata_formatted (pairs_to_metadata [("U1", "U2")] "t") ]}])
    = parse_previous_pairs_from_metadata
        ([] ++ [VDict {[ "metadata" := metadata_formatted (pairs_to_metadata [("U1", "U2")] "t") ]}]).
Proof.
  apply (parse_tolerates_missing_payload [] _ _ {[ "event_type" := VStr marker ]});
    [reflexivity | reflexivity | by apply missing_event_payload].
Defined.

(** C8, as stated, fails: an entry of the pairs list that lacks a user
    field is read by subscript, the [KeyError] leaves the decoder, and the
    records after it are not decoded. *)
Lemma parse_raises_on_incomplete_entry :
  parse_previous_pairs_from_metadata
    [VDict {[ "metadata" :=
        VDict {[ "event_type" := VStr marker;
                 "event_payload" :=
                   VDict {[ "pairs" := VList [VDict {[ "user1" := VStr "U1" ]}] ]} ]} ]};
     VDict {[ "metadata" := metadata_formatted (pairs_to_metadata [("U3", "U4")] "t") ]}]
  = Raise (KeyError "user2").
Proof. vm_compute. reflexivity. Qed.

(** C9. A history the decoder returns has at least one round and no round
    without pairs; a record with the marker whose pairs list is absent or
    empty is dropped, as if it were not in the input. *)
Theorem decoded_rounds_nonempty (messages : list pyval) :
  (∀ history, parse_previous_pairs_from_metadata messages = Ok (Some history) →
     history ≠ [] ∧ Forall (λ round, round ≠ []) history)
  ∧ (∀ before (d md : gmap string pyval) after,
       messages = before ++ VDict d :: after →
       d !! "metadata" = Some (VDict md) →
       md !! "event_type" = Some (VStr marker) →
       no_pairs md →
       parse_previous_pairs_from_metadata messages
       = parse_previous_pairs_from_metadata (before ++ after)).
Proof.
  split.
  - intros history. unfold parse_previous_pairs_from_metadata.
    destruct (parse_loop messages []) as [acc|] eqn:Hloop; simpl; [|done].
    destruct acc as [|round acc]; simpl; [done|]. intros [= <-]. split; [done|].
    by apply (parse_loop_nonempty _ _ _ Hloop).
  - intros before d md after -> Hd Hev Hno.
    apply parse_skip. intros acc. by apply (parse_message_no_pairs _ md).
Qed.

Lemma decoded_rounds_nonempty_witness :
  [[(VStr "U1", VStr "U2")]] ≠ []
  ∧ Forall (λ round : PairListV, round ≠ []) [[(VStr "U1", VStr "U2")]].
Proof.
  apply (proj1 (decoded_rounds_nonempty
    [VDict {[ "metadata" := metadata_formatted (VDict {[ "pairs" := VList [] ]}) ]};
     VDict {[ "metadata" := metadata_formatted (pairs_to_metadata [("U1", "U2")] "t") ]}])).
  vm_compute. reflexivity.
Defined.

Example unrelated_record_contributes_nothing :
  parse_previous_pairs_from_metadata
    [VDict {[ "metadata" := VDict {[ "event_type" := VStr marker;
                "event_payload" := VDict {[ "pairs" :=
                  VList [VDict {[ "user1" := VStr "U1"; "user2" := VStr "U2" ]};
                         VDict {[ "user1" := VStr "U3"; "user2" := VStr "U4" ]}] ]} ]} ]};
     VDict {[ "text" := VStr "unrelated" ]}]
  = Ok (Some [[(VStr "U1", VStr "U2"); (VStr "U3", VStr "U4")]]).
Proof. vm_compute. reflexivity. Qed.

(** ** Match engine *)

(** *** Lists as the engine uses them *)

Lemma pop_snoc (l : list string) (x : string) : pop (l ++ [x]) = Some (l, x).
Proof.
  induction l as [|y l IH]; [done|].
  change ((y :: l) ++ [x]) with (y :: (l ++ [x])). cbn [pop]. rewrite IH.
  by destruct l.
Qed.

Lemma pop_Some (l rest : list string) (x : string) :
  pop l = Some (rest, x) ↔ l = rest ++ [x].
Proof.
  split; [|intros ->; apply pop_snoc].
  destruct (decide (l = [])) as [->|Hne]; [done|].
  destruct (exists_last Hne) as (l' & y & ->).
  rewrite pop_snoc. by intros [= -> ->].
Qed.

Lemma pop_nonempty (l : list string) : l ≠ [] → ∃ rest x, l = rest ++ [x] ∧ pop l = Some (rest, x).
Proof.
  intros Hne. destruct (exists_last Hne) as (rest & x & ->).
  exists rest, x. split; [done | apply pop_snoc].
Qed.

Lemma list_remove_elem_of (x : string) (l : list string) :
  x ∈ l → ∃ rest, list_remove x l = Some rest ∧ l ≡ₚ x :: rest.
Proof.
  induction l as [|y l IH]; [by intros ?%elem_of_nil|].
  intros Hx. simpl. destruct (decide (y = x)) as [->|Hne]; [by eexists|].
  apply elem_of_cons in Hx as [->|Hx]; [done|].
  destruct (IH Hx) as (rest & -> & Hperm). eexists; split; [done|].
  rewrite Hperm. apply Permutation_swap.
Qed.

(** *** Avoid-sets *)

Lemma record_pair_dom member d p : dom (record_pair member d p) = dom d.
Proof.
  unfold record_pair. destruct p as [p1 p2].
  repeat case_decide; try done; apply leibniz_equiv, dom_alter.
Qed.

Lemma build_previous_matches_dict_dom members previous_pairs :
  dom (build_previous_matches_dict members previous_pairs) = list_to_set members.
Proof.
  assert (∀ (l : list string) (d : gmap string (gset string)),
    dom (foldl (λ d member, <[member := ∅]> d) d l) = list_to_set l ∪ dom d) as Hinit.
  { induction l as [|m l IH]; intros d; simpl; [set_solver|].
    rewrite IH, dom_insert_L. set_solver. }
  assert (∀ (pair_sets : PairHistory) (l : list string) (d : gmap string (gset string)),
    dom (foldl (λ d member,
                  foldl (λ d pair_set, foldl (record_pair member) d pair_set) d pair_sets)
               d l) = dom d) as Hscan.
  { intros pair_sets. induction l as [|m l IH]; intros d; simpl; [done|].
    rewrite IH. clear IH. revert d.
    induction pair_sets as [|ps pair_sets IH]; intros d; simpl; [done|].
    rewrite IH. clear IH. revert d.
    induction ps as [|p ps IH]; intros d; simpl; [done|].
    by rewrite IH, record_pair_dom. }
  unfold build_previous_matches_dict.
  destruct previous_pairs as [[|ps pair_sets]|]; rewrite ?Hscan, Hinit; set_solver.
Qed.

Lemma build_previous_matches_dict_member members previous_pairs member :
  member ∈ members →
  is_Some (build_previous_matches_dict members previous_pairs !! member).
Proof.
  intros Hm. apply elem_of_dom. rewrite build_previous_matches_dict_dom.
  by apply elem_of_list_to_set.
Qed.

Section engine_facts.
Context {R : Type} `{!RandomSource R}.

Lemma find_best_match_returns member1 available mpm previous (r : R) :
  available ≠ [] → mpm !! member1 = Some previous →
  ∃ member2 r', find_best_match member1 available mpm r = (Ok member2, r')
    ∧ member2 ∈ available
    ∧ ((∃ m, m ∈ available ∧ m ∉ previous) → member2 ∉ previous).
Proof.
  intros Hne Hprev. unfold find_best_match.
  destruct available as [|a rest]; [done|]. rewrite Hprev.
  destruct (filter (λ member, member ∉ previous) (a :: rest)) as [|c cs] eqn:Hf.
  - pose proof (choice_elem a rest r) as Hin.
    destruct (choice a rest r) as [m r']. exists m, r'. split; [done|]. split; [done|].
    intros (m' & Hm' & Hnew).
    assert (m' ∈ filter (λ member, member ∉ previous) (a :: rest)) as Hm''
      by by apply list_elem_of_filter.
    rewrite Hf in Hm''. by apply elem_of_nil in Hm''.
  - pose proof (choice_elem c cs r) as Hin.
    destruct (choice c cs r) as [m r']. exists m, r'. split; [done|].
    simpl in Hin. rewrite <- Hf in Hin. apply list_elem_of_filter in Hin as [Hnew Hin].
    done.
Qed.

Lemma find_best_match_PairingError member1 available mpm (r : R) why :
  (find_best_match member1 available mpm r).1 = Raise (PairingError why) ↔
  available = [] ∧ why = NoAvailableMembers member1.
Proof.
  unfold find_best_match. destruct available as [|a rest]; simpl.
  - split; [by intros [= <-] | by intros [_ ->]].
  - split; [|by intros [? _]].
    destruct (mpm !! member1) as [previous|]; [|done].
    destruct (filter _ _); [destruct (choice a rest r) | destruct (choice _ _ r)]; done.
Qed.
End engine_facts.

Lemma unpacked_members_cons p (pairs : PairList) :
  unpacked_members (p :: pairs) = p.1 :: p.2 :: unpacked_members pairs.
Proof. done. Qed.

Lemma occurrences_Permutation member pairs (l : list string) :
  unpacked_members pairs ≡ₚ l →
  occurrences member pairs = length (filter (λ name, name = member) l).
Proof. intros Hperm. unfold occurrences. by rewrite Hperm. Qed.

Lemma filter_eq_absent (member : string) (l : list string) :
  member ∉ l → filter (λ name, name = member) l = [].
Proof.
  induction l as [|x l IH]; [done|]. intros Hm.
  rewrite filter_cons_False; [apply IH|]; set_solver.
Qed.

Lemma NoDup_occurs_once (member : string) (l : list string) :
  NoDup l → member ∈ l → length (filter (λ name, name = member) l) = 1.
Proof.
  induction 1 as [|x l Hx Hnd IH]; [by intros ?%elem_of_nil|].
  intros Hm. rewrite filter_cons. case_decide as Heq.
  - subst x. simpl. by rewrite filter_eq_absent.
  - apply elem_of_cons in Hm as [->|Hm]; [done | by apply IH].
Qed.

Lemma absent_occurs_never (member : string) (l : list string) :
  member ∉ l → length (filter (λ name, name = member) l) = 0.
Proof.
  intros Hm. by rewrite filter_eq_absent.
Qed.

Section loop_facts.
Context {R : Type} `{!RandomSource R}.

(** What one run of the loop body does to [available] and [pairs]. *)
Lemma pair_step_returns first_member mpm available pairs (r : R) :
  available ≠ [] →
  (∀ m, m ∈ available → is_Some (mpm !! m)) →
  is_Some (mpm !! first_member) →
  ∃ member1 member2 available' r',
    pair_step first_member mpm available pairs r
    = (Ok (available', pairs ++ [(member1, member2)]), r')
    ∧ ((2 ≤ length available
        ∧ ∃ rest, pop available = Some (rest, member1) ∧ rest ≡ₚ member2 :: available')
       ∨ (available = [member2] ∧ member1 = first_member ∧ available' = [])).
Proof.
  intros Hne Hkeys Hfirst. unfold pair_step. case_decide as Hlen.
  - destruct (pop_nonempty available Hne) as (rest & member1 & -> & ->).
    rewrite length_app in Hlen. simpl in Hlen.
    destruct (Hkeys member1) as [previous Hprev]; [set_solver|].
    destruct (find_best_match_returns member1 rest mpm previous r)
      as (member2 & r' & -> & Hin & _); [by destruct rest; simpl in *; try lia | done |].
    destruct (list_remove_elem_of member2 rest Hin) as (available' & -> & Hperm).
    exists member1, member2, available', r'. split; [done|].
    left. split; [rewrite length_app; simpl; lia|]. by exists rest.
  - destruct available as [|x [|y available]]; [done| |simpl in Hlen; lia].
    destruct Hfirst as [previous Hprev].
    destruct (find_best_match_returns first_member [x] mpm previous r)
      as (member2 & r' & -> & Hin & _); [done..|].
    apply list_elem_of_singleton in Hin as ->.
    simpl. rewrite decide_True by done.
    exists first_member, x, [], r'. split; [done|]. by right.
Qed.

Lemma pair_loop_returns fuel first_member mpm available pairs (r : R) :
  length available ≤ fuel →
  (∀ m, m ∈ available → is_Some (mpm !! m)) →
  is_Some (mpm !! first_member) →
  ∃ pairs' r',
    pair_loop fuel first_member mpm available pairs r = Some (Ok (pairs ++ pairs'), r')
    ∧ unpacked_members pairs'
      ≡ₚ (if Nat.even (length available) then available else first_member :: available)
    ∧ length pairs' = (length available + 1) / 2.
Proof.
  intros Hfuel Hkeys Hfirst. revert available pairs r Hfuel Hkeys.
  induction fuel as [|fuel IH]; intros available pairs r Hfuel Hkeys.
  { destruct available; [|simpl in Hfuel; lia].
    exists [], r. by rewrite app_nil_r. }
  destruct available as [|x available0] eqn:Hav.
  { exists [], r. by rewrite app_nil_r. }
  rewrite <- Hav in *. assert (available ≠ []) as Hne by by subst.
  destruct (pair_step_returns first_member mpm available pairs r Hne Hkeys Hfirst)
    as (member1 & member2 & available' & r1 & Hstep & Hshape).
  assert (pair_loop (S fuel) first_member mpm available pairs r
          = pair_loop fuel first_member mpm available' (pairs ++ [(member1, member2)]) r1)
    as ->.
  { rewrite Hav at 1. cbn [pair_loop]. rewrite <- Hav. by rewrite Hstep. }
  clear Hav.
  destruct Hshape as [(Hlen & rest & Hpop & Hperm)|(Hone & -> & ->)].
  - apply pop_Some in Hpop.
    assert (length rest = S (length available')) as Hrest by by rewrite Hperm.
    destruct (IH available' (pairs ++ [(member1, member2)]) r1) as (pairs' & r' & -> & Hmem & Hcount).
    { rewrite Hpop, length_app in Hfuel. simpl in Hfuel. lia. }
    { intros m Hm. apply Hkeys. rewrite Hpop, Hperm. set_solver. }
    exists ((member1, member2) :: pairs'), r'. split; [by rewrite <- app_assoc|].
    subst available. rewrite length_app, Hrest. cbn [length].
    replace (S (length available') + 1) with (S (S (length available'))) by lia.
    split.
    + rewrite unpacked_members_cons. cbn [fst snd]. rewrite Hmem.
      change (Nat.even (S (S (length available')))) with (Nat.even (length available')).
      destruct (Nat.even (length available'));
        rewrite <- Permutation_cons_append, Hperm; [done|].
      apply perm_trans with (member1 :: first_member :: member2 :: available');
        [|apply Permutation_swap].
      constructor. apply Permutation_swap.
    + rewrite Hcount.
      replace (S (S (length available')) + 1) with (length available' + 1 + 1 * 2) by lia.
      rewrite Nat.div_add by done. lia.
  - exists [(first_member, member2)], r1. rewrite Hone.
    split; [by destruct fuel|]. done.
Qed.
End loop_facts.

Section engine_claims.
Context {R : Type} `{!RandomSource R}.

Lemma generate_pairs_returns members previous_pairs (r : R) :
  members ≠ [] →
  ∃ first_member pairs r',
    generate_pairs members previous_pairs r = Some (Ok pairs, r')
    ∧ last (shuffle members r).1 = Some first_member
    ∧ first_member ∈ members
    ∧ unpacked_members pairs
      ≡ₚ (if Nat.even (length members) then members else first_member :: members)
    ∧ length pairs = (length members + 1) / 2.
Proof.
  intros Hne. unfold generate_pairs.
  destruct members as [|m0 members0] eqn:Hm; [done|]. rewrite <- Hm in *. clear Hm.
  pose proof (shuffle_Permutation members r) as Hperm.
  destruct (shuffle members r) as [available r1]. simpl in Hperm.
  assert (available ≠ []) as Hav.
  { intros ->. by apply Permutation_nil_l in Hperm. }
  destruct (exists_last Hav) as (front & first_member & Hlast).
  assert (last available = Some first_member) as Hl by (subst; apply last_snoc).
  rewrite Hl.
  assert (first_member ∈ members) as Hfirst.
  { rewrite <- Hperm, Hlast. set_solver. }
  destruct (pair_loop_returns (length available) first_member
              (build_previous_matches_dict members previous_pairs) available [] r1)
    as (pairs & r' & Hloop & Hmem & Hcount); [done| |by apply build_previous_matches_dict_member|].
  { intros m Hin. apply build_previous_matches_dict_member. by rewrite <- Hperm. }
  exists first_member, pairs, r'. rewrite Hloop. simpl.
  do 3 (split; [done|]).
  rewrite Hperm in Hcount. split; [|done].
  rewrite Hmem. rewrite (Permutation_length Hperm).
  destruct (Nat.even (length members)); by rewrite Hperm.
Qed.

(** The engine always returns a round, of (N + 1) / 2 pairs. *)
Lemma generate_pairs_total members previous_pairs (r : R) :
  ∃ pairs r',
    generate_pairs members previous_pairs r = Some (Ok pairs, r')
    ∧ length pairs = (length members + 1) / 2.
Proof.
  destruct (decide (members = [])) as [->|Hne].
  { by exists [], r. }
  destruct (generate_pairs_returns members previous_pairs r Hne)
    as (first_member & pairs & r' & Hgen & _ & _ & _ & Hcount).
  by exists pairs, r'.
Qed.

(** C1. For a non-empty list of distinct members, whatever the history
    and the random source, [generate_pairs] returns a round in which every
    member occurs exactly once, but for the member drawn first after the
    shuffle (the last item of the shuffled list) when the number of members
    is odd: that member occurs exactly twice.  Nobody else occurs, and a
    single member is paired with itself in the one pair of the round. *)
Theorem generate_pairs_matches_everyone members previous_pairs (r : R) :
  members ≠ [] → NoDup members →
  ∃ first_member pairs r',
    generate_pairs members previous_pairs r = Some (Ok pairs, r')
    ∧ last (shuffle members r).1 = Some first_member
    ∧ first_member ∈ members
    ∧ (∀ member, member ∈ members →
         occurrences member pairs
         = if Nat.odd (length members) && bool_decide (member = first_member)
           then 2 else 1)
    ∧ (∀ name, name ∉ members → occurrences name pairs = 0)
    ∧ (∀ a, members = [a] → pairs = [(a, a)]).
Proof.
  intros Hne Hnd.
  destruct (generate_pairs_returns members previous_pairs r Hne)
    as (first_member & pairs & r' & Hgen & Hlast & Hfirst & Hmem & Hcount).
  exists first_member, pairs, r'. do 3 (split; [done|]).
  unfold Nat.odd. split; [|split].
  - intros member Hin. rewrite (occurrences_Permutation _ _ _ Hmem).
    destruct (Nat.even (length members)); simpl.
    + by apply NoDup_occurs_once.
    + rewrite filter_cons. case_bool_decide as Heq.
      * rewrite decide_True by done. simpl. f_equal. by apply NoDup_occurs_once.
      * rewrite decide_False by done. by apply NoDup_occurs_once.
  - intros name Hout. rewrite (occurrences_Permutation _ _ _ Hmem).
    apply absent_occurs_never. destruct (Nat.even (length members)); set_solver.
  - intros a ->. apply list_elem_of_singleton in Hfirst as ->.
    simpl in Hmem, Hcount.
    destruct pairs as [|[x y] [|p pairs]]; simpl in Hcount; try done.
    rewrite unpacked_members_cons in Hmem. simpl in Hmem.
    assert (x ∈ [a; a]) as Hx by (rewrite <- Hmem; set_solver).
    assert (y ∈ [a; a]) as Hy by (rewrite <- Hmem; set_solver).
    repeat f_equal; set_solver.
Qed.

(** C3. For a list of N members, whatever the history and the random
    source, [generate_pairs] returns a round of (N + 1) / 2 pairs, that is
    N / 2 pairs when N is even; for the empty list it returns the empty
    round, and raises nothing. *)
Theorem generate_pairs_count members previous_pairs (r : R) :
  (∃ pairs r',
     generate_pairs members previous_pairs r = Some (Ok pairs, r')
     ∧ length pairs = (length members + 1) / 2
     ∧ (if Nat.even (length members)
        then length pairs = length members / 2
        else length pairs = (length members + 1) / 2))
  ∧ generate_pairs [] previous_pairs r = Some (Ok [], r).
Proof.
  split; [|done].
  destruct (generate_pairs_total members previous_pairs r)
    as (pairs & r' & Hgen & Hcount).
  exists pairs, r'. split; [done|]. split; [done|].
  destruct (Nat.even (length members)) eqn:Heven; [|done].
  rewrite Hcount. apply Nat.even_spec in Heven as [k ->].
  rewrite (Nat.mul_comm 2 k), Nat.div_mul by done.
  rewrite Nat.div_add_l by done. simpl. lia.
Qed.

(** C6. With [previous] the avoid-set the dictionary holds for the drawn
    member: [find_best_match] raises [PairingError] exactly when nobody is
    available; otherwise it returns one of the available members, and one
    outside the avoid-set whenever some available member is outside it. *)
Theorem find_best_match_prefers_new member1 available mpm previous (r : R) :
  mpm !! member1 = Some previous →
  ((∃ why, (find_best_match member1 available mpm r).1 = Raise (PairingError why))
   ↔ available = [])
  ∧ (available ≠ [] →
     ∃ member2, (find_best_match member1 available mpm r).1 = Ok member2
       ∧ member2 ∈ available
       ∧ ((∃ m, m ∈ available ∧ m ∉ previous) → member2 ∉ previous)).
Proof.
  intros Hprev. split.
  - split.
    + intros [why Hraise]. by apply find_best_match_PairingError in Hraise as [-> _].
    + intros ->. by eexists.
  - intros Hne.
    destruct (find_best_match_returns member1 available mpm previous r Hne Hprev)
      as (member2 & r' & -> & Hin & Hnew).
    by exists member2.
Qed.

(** Without an entry for the drawn member the subscript raises. *)
Lemma find_best_match_KeyError member1 available mpm (r : R) :
  available ≠ [] → mpm !! member1 = None →
  find_best_match member1 available mpm r = (Raise (KeyError member1), r).
Proof. intros Hne Hnone. unfold find_best_match. destruct available; [done|]. by rewrite Hnone. Qed.
End engine_claims.

Lemma generate_pairs_matches_everyone_witness :
  ["Liam"; "Olivia"; "Noah"; "Emma"; "Ava"] ≠ [] ∧ NoDup ["Liam"; "Olivia"; "Noah"; "Emma"; "Ava"]
  ∧ ∃ first_member pairs r',
      generate_pairs ["Liam"; "Olivia"; "Noah"; "Emma"; "Ava"] None [3; 1; 4; 1; 5; 9; 2; 6]
      = Some (Ok pairs, r')
      ∧ occurrences first_member pairs = 2.
Proof.
  assert (NoDup ["Liam"; "Olivia"; "Noah"; "Emma"; "Ava"]) as Hnd.
  { apply (bool_decide_unpack _). vm_compute. exact I. }
  split; [done|]. split; [done|].
  destruct (generate_pairs_matches_everyone ["Liam"; "Olivia"; "Noah"; "Emma"; "Ava"] None
              [3; 1; 4; 1; 5; 9; 2; 6])
    as (first_member & pairs & r' & Hgen & _ & Hfirst & Hocc & _); [done..|].
  exists first_member, pairs, r'. split; [done|].
  rewrite (Hocc _ Hfirst). simpl. by rewrite bool_decide_eq_true_2.
Defined.

Lemma find_best_match_prefers_new_witness :
  ∃ member2,
    (find_best_match "A" ["B"; "C"] {[ "A" := {[ "B" ]} ]} [0]).1 = Ok member2
    ∧ member2 ∈ ["B"; "C"] ∧ member2 ∉ ({[ "B" ]} : gset string).
Proof.
  destruct (find_best_match_prefers_new "A" ["B"; "C"] {[ "A" := {[ "B" ]} ]} {[ "B" ]} [0])
    as [_ Hret]; [reflexivity|].
  destruct Hret as (member2 & Hres & Hin & Hnew); [done|].
  exists member2. split; [done|]. split; [done|].
  apply Hnew. exists "C". split; [set_solver|]. set_solver.
Defined.

(** The scenarios of the test suite, on the tape source. *)
Example five_members_three_pairs :
  generate_pairs ["A"; "B"; "C"; "D"; "E"] None [3; 1; 4; 1; 5; 9; 2; 6]
  = Some (Ok [("D", "E"); ("C", "A"); ("D", "B")], []).
Proof. vm_compute. reflexivity. Qed.

Example six_members_three_pairs :
  generate_pairs ["A"; "B"; "C"; "D"; "E"; "F"] None [3; 1; 4; 1; 5; 9; 2; 6; 5]
  = Some (Ok [("E", "C"); ("D", "B"); ("A", "F")], []).
Proof. vm_compute. reflexivity. Qed.

Example recent_partner_avoided :
  (find_best_match "X" ["Y"; "Z"] (build_previous_matches_dict ["X"; "Y"; "Z"] (Some [[("Y", "X")]])) [0]).1
  = Ok "Z".
Proof. vm_compute. reflexivity. Qed.

(** ** Notification dispatcher *)

Lemma none_delivered_iff (deliveries : list delivery) :
  length (filter (λ d, ¬ failed d) deliveries) = 0 ↔ Forall failed deliveries.
Proof.
  induction deliveries as [|d deliveries IH]; [done|].
  rewrite filter_cons, Forall_cons. destruct (decide (¬ failed d)) as [Hd|Hd]; simpl.
  - split; [done | by intros [? _]].
  - rewrite IH. apply dec_stable in Hd. naive_solver.
Qed.

Lemma outcomes_partition (deliveries : list delivery) :
  length (filter failed deliveries) + length (filter (λ d, ¬ failed d) deliveries)
  = length deliveries.
Proof.
  induction deliveries as [|d deliveries IH]; [done|].
  rewrite !filter_cons. destruct (decide (failed d)) as [Hd|Hd].
  - rewrite decide_False by (by intros Hn; apply Hn). simpl. lia.
  - rewrite decide_True by done. simpl. lia.
Qed.

Section dispatcher_facts.
Context {C : Type} `{!SlackClient C}.

(** The loop over a client with a log: the client behind it goes through
    the same states, the counters count the outcomes in the log, and the
    log grows by one call for each pair, in order. *)
Lemma notify_loop_recorded pairs channel_id success_count fail_count (c : C) log :
  ∃ deliveries,
    notify_loop pairs channel_id success_count fail_count (c, log)
    = (success_count + length (filter (λ d, ¬ failed d) deliveries),
       fail_count + length (filter failed deliveries),
       ((notify_loop pairs channel_id success_count fail_count c).2, log ++ deliveries))
    ∧ (notify_loop pairs channel_id success_count fail_count c).1
      = (success_count + length (filter (λ d, ¬ failed d) deliveries),
         fail_count + length (filter failed deliveries))
    ∧ announced <$> deliveries = announcement channel_id <$> pairs.
Proof.
  revert success_count fail_count c log.
  induction pairs as [|p pairs IH]; intros success_count fail_count c log.
  { exists []. simpl. by rewrite app_nil_r, !Nat.add_0_r. }
  cbn [notify_loop]. rewrite !fmap_cons.
  change (send_group_dm p (dm_message p channel_id) (c, log))
    with (let '(outcome, c') := send_group_dm p (dm_message p channel_id) c in
          (outcome, (c', log ++ [Delivery p (dm_message p channel_id) outcome]))).
  destruct (send_group_dm p (dm_message p channel_id) c) as [[b|e] c'].
  - destruct (IH (S success_count) fail_count c'
                (log ++ [Delivery p (dm_message p channel_id) (Ok b)]))
      as (deliveries & -> & -> & <-).
    exists (Delivery p (dm_message p channel_id) (Ok b) :: deliveries).
    rewrite <- app_assoc, fmap_cons, !filter_cons.
    rewrite decide_True by (by intros ?). rewrite decide_False by (by intros ?).
    cbn [length]. by rewrite !Nat.add_succ_r.
  - destruct (IH success_count (S fail_count) c'
                (log ++ [Delivery p (dm_message p channel_id) (Raise e)]))
      as (deliveries & -> & -> & <-).
    exists (Delivery p (dm_message p channel_id) (Raise e) :: deliveries).
    rewrite <- app_assoc, fmap_cons, !filter_cons.
    rewrite decide_False by (by intros Hn; apply Hn). rewrite decide_True by done.
    cbn [length]. by rewrite !Nat.add_succ_r.
Qed.
End dispatcher_facts.

Section dispatcher_claims.
Context {C : Type} `{!SlackClient C}.

Lemma send_pair_notifications_recorded pairs channel_id (c : C) log :
  ∃ deliveries,
    send_pair_notifications pairs channel_id (c, log)
    = ((send_pair_notifications pairs channel_id c).1,
       ((send_pair_notifications pairs channel_id c).2, log ++ deliveries))
    ∧ announced <$> deliveries = announcement channel_id <$> pairs
    ∧ (send_pair_notifications pairs channel_id c).1
      = if decide (0 < length (filter failed deliveries)
                   ∧ length (filter (λ d, ¬ failed d) deliveries) = 0)
        then Raise (PairingError (AllGroupDmsFailed (length (filter failed deliveries))))
        else Ok ().
Proof.
  destruct (notify_loop_recorded pairs channel_id 0 0 c log)
    as (deliveries & Hrec & Hplain & Hlog).
  exists deliveries. unfold send_pair_notifications. rewrite Hrec.
  destruct (notify_loop pairs channel_id 0 0 c) as [[s f] c'].
  simpl in Hplain. injection Hplain as -> ->. simpl.
  by case_decide.
Qed.

(** C5. Whatever the client does with each call, [send_pair_notifications]
    calls [send_group_dm] once for each pair of the round, in the order of
    the round, with that pair and its announcement: the calls logged are
    the pairs of the round, position by position.  A call that fails does
    not keep the calls after it from being made. *)
Theorem notifier_called_once_per_pair_in_order pairs channel_id (c : C) log :
  ∃ deliveries,
    (send_pair_notifications pairs channel_id (c, log)).2
    = ((send_pair_notifications pairs channel_id c).2, log ++ deliveries)
    ∧ announced <$> deliveries = announcement channel_id <$> pairs
    ∧ length deliveries = length pairs
    ∧ ∀ i p, pairs !! i = Some p →
        ∃ d, deliveries !! i = Some d
          ∧ delivery_pair d = p ∧ delivery_message d = dm_message p channel_id.
Proof.
  destruct (send_pair_notifications_recorded pairs channel_id c log)
    as (deliveries & -> & Hlog & _).
  exists deliveries. split; [done|]. split; [done|].
  split; [by rewrite <- (length_fmap announced), Hlog, length_fmap|].
  intros i p Hp.
  assert ((announced <$> deliveries) !! i = Some (announcement channel_id p)) as Hi
    by by rewrite Hlog, list_lookup_fmap, Hp.
  rewrite list_lookup_fmap in Hi. destruct (deliveries !! i) as [d|]; [|done].
  exists d. injection Hi as Hd1 Hd2. done.
Qed.

(** C4. [send_pair_notifications] calls the client once for each pair of
    the round, and it raises exactly when the round has a pair and every
    one of these calls failed; what it raises is the [PairingError] that
    carries the number of failed calls, which then is the number of pairs;
    it returns normally exactly when the round is empty or some call
    succeeded.  The calls are those the run itself makes: the log starts
    empty and ends as the announcements of the round, one for each pair. *)
Theorem send_pair_notifications_raises_iff_all_failed pairs channel_id (c : C) :
  let run := send_pair_notifications pairs channel_id (c, []) in
  let deliveries := run.2.2 in
  announced <$> deliveries = announcement channel_id <$> pairs
  ∧ run.2.1 = (send_pair_notifications pairs channel_id c).2
  ∧ run.1 = (send_pair_notifications pairs channel_id c).1
  ∧ (run.1 = Raise (PairingError (AllGroupDmsFailed (length pairs)))
     ↔ pairs ≠ [] ∧ Forall failed deliveries)
  ∧ (run.1 = Raise (PairingError (AllGroupDmsFailed (length (filter failed deliveries))))
     ↔ deliveries ≠ [] ∧ Forall failed deliveries)
  ∧ (run.1 = Ok () ↔ pairs = [] ∨ Exists (λ d, ¬ failed d) deliveries)
  ∧ (∀ e, run.1 = Raise e →
       e = PairingError (AllGroupDmsFailed (length pairs))
       ∧ length (filter failed deliveries) = length pairs).
Proof.
  destruct (send_pair_notifications_recorded pairs channel_id c [])
    as (deliveries & -> & Hlog & ->).
  cbn zeta. cbn [fst snd]. rewrite app_nil_l.
  assert (length deliveries = length pairs) as Hlen
    by by rewrite <- (length_fmap announced), Hlog, length_fmap.
  assert (deliveries ≠ [] ↔ pairs ≠ []) as Hnil.
  { destruct deliveries, pairs; simpl in Hlen; naive_solver. }
  pose proof (none_delivered_iff deliveries) as Hnone.
  pose proof (outcomes_partition deliveries) as Hsum.
  split; [done|]. split; [done|]. split; [done|]. rewrite Hnil.
  case_decide as Hall.
  - destruct Hall as [Hf Hs]. rewrite Hs, Nat.add_0_r, Hlen in Hsum.
    rewrite Hsum.
    assert (pairs ≠ []) as Hne by (intros ->; simpl in *; lia).
    split; [|split; [|split]].
    + split; [|done]. intros _. split; [done|]. by apply Hnone.
    + split; [|done]. intros _. split; [done|]. by apply Hnone.
    + split; [done|]. intros [->|Hex]; [done|].
      apply Hnone in Hs. apply Exists_exists in Hex as (d & Hd & Hnf).
      rewrite Forall_forall in Hs. by destruct Hnf; apply Hs.
    + by intros e [= <-].
  - assert (pairs ≠ [] → Forall failed deliveries → False) as Hno.
    { intros Hne Hfailed%Hnone. destruct Hall. split; [|done].
      destruct pairs; [done|]. simpl in *. lia. }
    split; [|split; [|split]].
    + split; [done|]. by intros [Hne Hfailed]; destruct (Hno Hne Hfailed).
    + split; [done|]. by intros [Hne Hfailed]; destruct (Hno Hne Hfailed).
    + split; [|done]. intros _.
      destruct (decide (pairs = [])) as [->|Hne]; [by left|right].
      apply not_Forall_Exists; [apply _|]. intros Hfailed. by apply Hno.
    + done.
Qed.
End dispatcher_claims.

Example two_of_three_deliveries_fail :
  send_pair_notifications [("U1", "U2"); ("U3", "U4"); ("U5", "U6")] "C042"
    ([false; true; false], [])
  = (Ok (),
     ([], [Delivery ("U1", "U2") (dm_message ("U1", "U2") "C042") (Raise SlackClientError);
           Delivery ("U3", "U4") (dm_message ("U3", "U4") "C042") (Ok true);
           Delivery ("U5", "U6") (dm_message ("U5", "U6") "C042") (Raise SlackClientError)])).
Proof. vm_compute. reflexivity. Qed.

Example all_three_deliveries_fail :
  (send_pair_notifications [("U1", "U2"); ("U3", "U4"); ("U5", "U6")] "C042"
     [false; false; false]).1
  = Raise (PairingError (AllGroupDmsFailed 3)).
Proof. vm_compute. reflexivity. Qed.

(** ** The match engine on the object store *)

Lemma only_changes_refl l σ : only_changes l σ σ.
Proof. by intros l' _. Qed.

Lemma only_changes_trans l σ1 σ2 σ3 :
  only_changes l σ1 σ2 → only_changes l σ2 σ3 → only_changes l σ1 σ3.
Proof. intros H12 H23 l' Hl'. by rewrite H23, H12. Qed.

Lemma only_changes_insert l (o : pyobj) σ : only_changes l σ (<[l := o]> σ).
Proof. intros l' Hl'. by rewrite lookup_insert_ne. Qed.

Lemma read_list_Some (σ : heap) l items :
  σ !! l = Some (ListObj items) → read_list σ l = Ok items.
Proof. intros Hl. unfold read_list. by rewrite Hl. Qed.

Section heap_facts.
Context {R : Type} `{!RandomSource R}.

Lemma pair_step_heap_sim first_member mpm available pairs (σ : heap) (r : R) items :
  σ !! available = Some (ListObj items) →
  ∃ σ',
    pair_step_heap first_member mpm available pairs σ r
    = (match (pair_step first_member mpm items pairs r).1 with
       | Ok (_, pairs') => Ok pairs'
       | Raise e => Raise e
       end, σ', (pair_step first_member mpm items pairs r).2)
    ∧ only_changes available σ σ'
    ∧ ∀ items' pairs', (pair_step first_member mpm items pairs r).1 = Ok (items', pairs') →
        σ' !! available = Some (ListObj items').
Proof.
  intros Hav. unfold pair_step_heap, pair_step.
  rewrite (read_list_Some _ _ _ Hav). case_decide as Hlen.
  - unfold heap_pop. rewrite (read_list_Some _ _ _ Hav).
    destruct (pop items) as [[items1 member1]|].
    2: { exists σ. split; [done|]. split; [apply only_changes_refl | done]. }
    unfold find_best_match_heap.
    rewrite (read_list_Some (<[available:=ListObj items1]> σ) available items1)
      by apply lookup_insert_eq.
    destruct (find_best_match member1 items1 mpm r) as [[member2|e] r1].
    2: { eexists. split; [done|]. split; [apply only_changes_insert | done]. }
    unfold heap_remove.
    rewrite (read_list_Some (<[available:=ListObj items1]> σ) available items1)
      by apply lookup_insert_eq.
    destruct (list_remove member2 items1) as [items2|].
    2: { eexists. split; [done|]. split; [apply only_changes_insert | done]. }
    eexists. split; [done|]. split.
    + rewrite insert_insert_eq. apply only_changes_insert.
    + intros items' pairs' [= <- <-]. apply lookup_insert_eq.
  - unfold find_best_match_heap. rewrite (read_list_Some _ _ _ Hav).
    destruct (find_best_match first_member items mpm r) as [[member2|e] r1].
    2: { exists σ. split; [done|]. split; [apply only_changes_refl | done]. }
    unfold heap_remove. rewrite (read_list_Some _ _ _ Hav).
    destruct (list_remove member2 items) as [items1|].
    2: { exists σ. split; [done|]. split; [apply only_changes_refl | done]. }
    eexists. split; [done|]. split; [apply only_changes_insert|].
    intros items' pairs' [= <- <-]. apply lookup_insert_eq.
Qed.

Lemma pair_loop_heap_sim fuel first_member mpm available pairs (σ : heap) (r : R) items :
  σ !! available = Some (ListObj items) →
  match pair_loop fuel first_member mpm items pairs r with
  | None => pair_loop_heap fuel first_member mpm available pairs σ r = None
  | Some (res, r') =>
      ∃ σ', pair_loop_heap fuel first_member mpm available pairs σ r = Some (res, σ', r')
            ∧ only_changes available σ σ'
  end.
Proof.
  revert pairs σ r items. induction fuel as [|fuel IH]; intros pairs σ r items Hav.
  - simpl. rewrite (read_list_Some _ _ _ Hav). destruct items; [|done].
    exists σ. split; [done | apply only_changes_refl].
  - cbn [pair_loop pair_loop_heap]. rewrite (read_list_Some _ _ _ Hav).
    destruct items as [|x items0] eqn:Hitems.
    { exists σ. split; [done | apply only_changes_refl]. }
    rewrite <- Hitems in *. clear Hitems.
    destruct (pair_step_heap_sim first_member mpm available pairs σ r items Hav)
      as (σ1 & -> & Hframe & Hnext).
    destruct (pair_step first_member mpm items pairs r) as [[[items1 pairs1]|e] r1]; simpl.
    + specialize (IH pairs1 σ1 r1 items1 (Hnext _ _ eq_refl)).
      destruct (pair_loop fuel first_member mpm items1 pairs1 r1) as [[res r']|]; [|done].
      destruct IH as (σ' & -> & Hframe'). exists σ'. split; [done|].
      by apply only_changes_trans with σ1.
    + by exists σ1.
Qed.

Lemma generate_pairs_heap_sim members previous_pairs (σ : heap) (r : R) items history :
  σ !! members = Some (ListObj items) →
  read_history σ previous_pairs = Ok history →
  match generate_pairs items history r with
  | None => generate_pairs_heap members previous_pairs σ r = None
  | Some (res, r') =>
      ∃ σ', generate_pairs_heap members previous_pairs σ r = Some (res, σ', r') ∧ σ ⊆ σ'
  end.
Proof.
  intros Hm Hh. unfold generate_pairs_heap, generate_pairs.
  rewrite (read_list_Some _ _ _ Hm).
  destruct items as [|x items0] eqn:Hitems; [by exists σ|].
  rewrite <- Hitems in *. assert (items ≠ []) as Hne by by subst. clear Hitems x items0.
  unfold heap_copy. rewrite (read_list_Some _ _ _ Hm).
  set (available := fresh (dom σ)).
  assert (σ !! available = None) as Hfresh by apply not_elem_of_dom, is_fresh.
  unfold heap_shuffle.
  rewrite (read_list_Some (<[available:=ListObj items]> σ) available items)
    by apply lookup_insert_eq.
  destruct (shuffle items r) as [shuffled r1]. rewrite insert_insert_eq.
  assert (build_previous_matches_dict_heap members previous_pairs
            (<[available:=ListObj shuffled]> σ)
          = Ok (build_previous_matches_dict items history)) as ->.
  { unfold build_previous_matches_dict_heap.
    rewrite (read_list_Some _ members items).
    2: { rewrite lookup_insert_ne; [done|]. intros <-. by rewrite Hfresh in Hm. }
    assert (read_history (<[available:=ListObj shuffled]> σ) previous_pairs = Ok history)
      as ->; [|done].
    unfold read_history in *. destruct previous_pairs as [l|]; [|done].
    destruct (decide (l = available)) as [->|Hne']; [by rewrite Hfresh in Hh|].
    by rewrite lookup_insert_ne. }
  rewrite (read_list_Some (<[available:=ListObj shuffled]> σ) available shuffled)
    by apply lookup_insert_eq.
  assert (∀ σ', only_changes available (<[available:=ListObj shuffled]> σ) σ' → σ ⊆ σ')
    as Hsub.
  { intros σ' Hframe. apply map_subseteq_spec. intros l o Hl.
    assert (l ≠ available) as Hl' by (intros ->; by rewrite Hfresh in Hl).
    by rewrite Hframe, lookup_insert_ne. }
  destruct (last shuffled) as [first_member|].
  2: { eexists. split; [done|]. apply Hsub, only_changes_refl. }
  pose proof (pair_loop_heap_sim (length shuffled) first_member
                (build_previous_matches_dict items history) available []
                (<[available:=ListObj shuffled]> σ) r1 shuffled (lookup_insert_eq _ _ _)) as Hloop.
  destruct (pair_loop (length shuffled) first_member _ shuffled [] r1) as [[res r']|]; [|done].
  destruct Hloop as (σ' & -> & Hframe). exists σ'. split; [done|]. by apply Hsub.
Qed.

(** C10. Called with a reference to the members list and with a
    reference to the history (or [None]), [generate_pairs] returns the
    round that the value-level [generate_pairs] computes, and after the
    call the members list has the same items in the same order, the
    history is the same, and so is every other object that the store held
    before the call: the shuffle, the pops and the removals only touch the
    copy that the call allocated. *)
Theorem generate_pairs_leaves_arguments members previous_pairs (σ : heap) (r : R)
    items history :
  σ !! members = Some (ListObj items) →
  read_history σ previous_pairs = Ok history →
  ∃ pairs σ' r',
    generate_pairs_heap members previous_pairs σ r = Some (Ok pairs, σ', r')
    ∧ generate_pairs items history r = Some (Ok pairs, r')
    ∧ σ' !! members = Some (ListObj items)
    ∧ read_history σ' previous_pairs = Ok history
    ∧ σ ⊆ σ'.
Proof.
  intros Hm Hh.
  destruct (generate_pairs_total items history r) as (pairs & r' & Hgen & _).
  pose proof (generate_pairs_heap_sim members previous_pairs σ r items history Hm Hh) as Hsim.
  rewrite Hgen in Hsim. destruct Hsim as (σ' & Hheap & Hsub).
  exists pairs, σ', r'. do 2 (split; [done|]).
  split; [by apply (lookup_weaken σ)|]. split; [|done].
  unfold read_history in *. destruct previous_pairs as [l|]; [|done].
  destruct (σ !! l) as [o|] eqn:Hl; [|done].
  by rewrite (lookup_weaken σ σ' l o).
Qed.
End heap_facts.

Lemma generate_pairs_leaves_arguments_witness :
  ∃ pairs σ' r',
    generate_pairs_heap 0 (Some 1)
      {[ 0 := ListObj ["Liam"; "Olivia"; "Emma"; "Ava"; "Sophia"];
         1 := HistoryObj [[("Olivia", "Noah"); ("Olivia", "Ava")]] ]}
      [2; 7; 1; 8; 2; 8; 1; 8]
    = Some (Ok pairs, σ', r')
    ∧ σ' !! 0 = Some (ListObj ["Liam"; "Olivia"; "Emma"; "Ava"; "Sophia"])
    ∧ read_history σ' (Some 1) = Ok (Some [[("Olivia", "Noah"); ("Olivia", "Ava")]]).
Proof.
  destruct (generate_pairs_leaves_arguments 0 (Some 1)
              {[ 0 := ListObj ["Liam"; "Olivia"; "Emma"; "Ava"; "Sophia"];
                 1 := HistoryObj [[("Olivia", "Noah"); ("Olivia", "Ava")]] ]}
              [2; 7; 1; 8; 2; 8; 1; 8]
              ["Liam"; "Olivia"; "Emma"; "Ava"; "Sophia"]
              (Some [[("Olivia", "Noah"); ("Olivia", "Ava")]]))
    as (pairs & σ' & r' & Hheap & _ & Hm & Hh & _); [reflexivity..|].
  by exists pairs, σ', r'.
Defined.

Example store_after_the_call :
  generate_pairs_heap 0 None {[ 0 := ListObj ["A"; "B"; "C"] ]} [1; 0; 2; 0; 0]
  = Some (Ok [("A", "B"); ("A", "C")],
          {[ 0 := ListObj ["A"; "B"; "C"]; 1 := ListObj [] ]}, []).
Proof. vm_compute. reflexivity. Qed.

(** * Further properties *)

(** ** Avoid-sets *)

Lemma record_pair_other member d p k :
  k ≠ member → record_pair member d p !! k = d !! k.
Proof.
  intros Hk. unfold record_pair. destruct p as [p1 p2].
  repeat case_decide; try done; by rewrite lookup_alter_ne.
Qed.

Lemma record_pair_member member d p s :
  d !! member = Some s →
  ∃ s', record_pair member d p !! member = Some s'
    ∧ ∀ x, x ∈ s' ↔ x ∈ s ∨ p = (member, x) ∨ p = (x, member).
Proof.
  intros Hs. unfold record_pair. destruct p as [p1 p2].
  destruct (decide (p1 = member)) as [->|H1]; [|destruct (decide (p2 = member)) as [->|H2]].
  - exists (s ∪ {[p2]}). rewrite lookup_alter_eq, Hs. split; [done|].
    intros x. rewrite elem_of_union, elem_of_singleton. naive_solver.
  - exists (s ∪ {[p1]}). rewrite lookup_alter_eq, Hs. split; [done|].
    intros x. rewrite elem_of_union, elem_of_singleton. naive_solver.
  - exists s. split; [done|]. naive_solver.
Qed.

Lemma scan_pair_set_member member pair_set d s :
  d !! member = Some s →
  ∃ s', foldl (record_pair member) d pair_set !! member = Some s'
    ∧ ∀ x, x ∈ s' ↔ x ∈ s ∨ (member, x) ∈ pair_set ∨ (x, member) ∈ pair_set.
Proof.
  revert d s. induction pair_set as [|p pair_set IH]; intros d s Hs; simpl.
  - exists s. split; [done|]. intros x. rewrite !elem_of_nil. naive_solver.
  - destruct (record_pair_member member d p s Hs) as (s1 & Hs1 & Hin1).
    destruct (IH _ _ Hs1) as (s' & Hs' & Hin'). exists s'. split; [done|].
    intros x. rewrite Hin', Hin1, !elem_of_cons. naive_solver.
Qed.

Lemma scan_pair_set_other member pair_set d k :
  k ≠ member → foldl (record_pair member) d pair_set !! k = d !! k.
Proof.
  intros Hk. revert d. induction pair_set as [|p pair_set IH]; intros d; simpl; [done|].
  by rewrite IH, record_pair_other.
Qed.

Lemma scan_history_member member (pair_sets : PairHistory) d s :
  d !! member = Some s →
  ∃ s', foldl (λ d pair_set, foldl (record_pair member) d pair_set) d pair_sets !! member
        = Some s'
    ∧ ∀ x, x ∈ s' ↔ x ∈ s ∨ matched_before (Some pair_sets) member x.
Proof.
  revert d s. induction pair_sets as [|ps pair_sets IH]; intros d s Hs; simpl.
  - exists s. split; [done|]. intros x. unfold matched_before. simpl.
    split; [by left|]. intros [?|(? & ?%elem_of_nil & _)]; done.
  - destruct (scan_pair_set_member member ps d s Hs) as (s1 & Hs1 & Hin1).
    destruct (IH _ _ Hs1) as (s' & Hs' & Hin'). exists s'. split; [done|].
    intros x. rewrite Hin', Hin1. unfold matched_before. simpl. split.
    + intros [[?|Hps]|(ps' & Hps' & Hx)]; [by left| |].
      * right. exists ps. split; [by left | done].
      * right. exists ps'. split; [by right | done].
    + intros [?|(ps' & Hps' & Hx)]; [by left; left|].
      apply elem_of_cons in Hps' as [->|Hps']; [by left; right|].
      right. by exists ps'.
Qed.

Lemma scan_history_other member (pair_sets : PairHistory) d k :
  k ≠ member →
  foldl (λ d pair_set, foldl (record_pair member) d pair_set) d pair_sets !! k = d !! k.
Proof.
  intros Hk. revert d. induction pair_sets as [|ps pair_sets IH]; intros d; simpl; [done|].
  by rewrite IH, scan_pair_set_other.
Qed.

Lemma scan_members_lookup (pair_sets : PairHistory) members d m s :
  d !! m = Some s →
  ∃ s', foldl (λ d member,
                 foldl (λ d pair_set, foldl (record_pair member) d pair_set) d pair_sets)
              d members !! m = Some s'
    ∧ ∀ x, x ∈ s' ↔ x ∈ s ∨ (m ∈ members ∧ matched_before (Some pair_sets) m x).
Proof.
  revert d s. induction members as [|m0 members IH]; intros d s Hs; simpl.
  - exists s. split; [done|]. intros x. rewrite elem_of_nil. naive_solver.
  - destruct (decide (m = m0)) as [<-|Hne].
    + destruct (scan_history_member m pair_sets d s Hs) as (s1 & Hs1 & Hin1).
      destruct (IH _ _ Hs1) as (s' & Hs' & Hin'). exists s'. split; [done|].
      intros x. rewrite Hin', Hin1, elem_of_cons. naive_solver.
    + assert (foldl (λ d pair_set, foldl (record_pair m0) d pair_set) d pair_sets !! m
              = Some s) as Hs1 by by rewrite scan_history_other.
      destruct (IH _ _ Hs1) as (s' & Hs' & Hin'). exists s'. split; [done|].
      intros x. rewrite Hin', elem_of_cons. naive_solver.
Qed.

Lemma init_matches_lookup members (d : gmap string (gset string)) m :
  m ∈ members → foldl (λ d member, <[member := ∅]> d) d members !! m = Some ∅.
Proof.
  revert d. induction members as [|m0 members IH]; intros d; [by intros ?%elem_of_nil|].
  intros Hm. simpl. destruct (decide (m ∈ members)) as [Hin|Hout]; [by apply IH|].
  apply elem_of_cons in Hm as [->|?]; [|done].
  clear IH. revert d. induction members as [|m1 members IH]; intros d; simpl.
  - apply lookup_insert_eq.
  - apply not_elem_of_cons in Hout as [Hne Hout].
    rewrite insert_insert_ne by done. by apply IH.
Qed.

Lemma avoid_set_lookup members previous_pairs member :
  member ∈ members →
  ∃ s, build_previous_matches_dict members previous_pairs !! member = Some s
    ∧ ∀ x, x ∈ s ↔ matched_before previous_pairs member x.
Proof.
  intros Hm. unfold build_previous_matches_dict.
  pose proof (init_matches_lookup members ∅ member Hm) as Hinit.
  destruct previous_pairs as [[|ps pair_sets]|].
  - exists ∅. split; [done|]. intros x. split; [set_solver|].
    by intros (? & ?%elem_of_nil & _).
  - destruct (scan_members_lookup (ps :: pair_sets) members _ member ∅ Hinit)
      as (s & Hs & Hin).
    exists s. split; [done|]. intros x. rewrite Hin. set_solver.
  - exists ∅. split; [done|]. intros x. split; [set_solver|].
    by intros (? & ?%elem_of_nil & _).
Qed.

(** X1. The dict has a key for each member and for nobody else, and the set
    under a member's key holds exactly the identifiers the history pairs
    the member with, on either side of a pair. *)
Theorem previous_matches_dict_lookup members previous_pairs member :
  match build_previous_matches_dict members previous_pairs !! member with
  | Some s => member ∈ members ∧ ∀ x, x ∈ s ↔ matched_before previous_pairs member x
  | None => member ∉ members
  end.
Proof.
  destruct (decide (member ∈ members)) as [Hin|Hout].
  - destruct (avoid_set_lookup members previous_pairs member Hin) as (s & -> & Hs). done.
  - assert (build_previous_matches_dict members previous_pairs !! member = None) as ->; [|done].
    apply not_elem_of_dom. rewrite build_previous_matches_dict_dom.
    by rewrite elem_of_list_to_set.
Qed.

Lemma matched_before_sym previous_pairs a b :
  matched_before previous_pairs a b ↔ matched_before previous_pairs b a.
Proof. unfold matched_before. naive_solver. Qed.

(** X2. Among current members the avoid-sets are symmetric: [b] is in the
    avoid-set of [a] exactly when [a] is in the avoid-set of [b]. *)
Theorem previous_matches_symmetric members previous_pairs a b :
  a ∈ members → b ∈ members →
  ∃ sa sb,
    build_previous_matches_dict members previous_pairs !! a = Some sa
    ∧ build_previous_matches_dict members previous_pairs !! b = Some sb
    ∧ (b ∈ sa ↔ a ∈ sb).
Proof.
  intros Ha Hb.
  destruct (avoid_set_lookup members previous_pairs a Ha) as (sa & Hsa & Hina).
  destruct (avoid_set_lookup members previous_pairs b Hb) as (sb & Hsb & Hinb).
  exists sa, sb. do 2 (split; [done|]).
  by rewrite Hina, Hinb, matched_before_sym.
Qed.

Lemma previous_matches_symmetric_witness :
  ∃ sa sb : gset string,
    build_previous_matches_dict ["Liam"; "Olivia"; "Ava"]
      (Some [[("Olivia", "Noah"); ("Olivia", "Ava")]]) !! "Ava" = Some sa
    ∧ build_previous_matches_dict ["Liam"; "Olivia"; "Ava"]
        (Some [[("Olivia", "Noah"); ("Olivia", "Ava")]]) !! "Olivia" = Some sb
    ∧ ("Olivia" ∈ sa ↔ "Ava" ∈ sb).
Proof.
  apply (previous_matches_symmetric ["Liam"; "Olivia"; "Ava"]
           (Some [[("Olivia", "Noah"); ("Olivia", "Ava")]]) "Ava" "Olivia");
    set_solver.
Defined.

Lemma build_previous_matches_dict_ext members previous_pairs previous_pairs' :
  (∀ member x, member ∈ members →
     (matched_before previous_pairs member x ↔ matched_before previous_pairs' member x)) →
  build_previous_matches_dict members previous_pairs
  = build_previous_matches_dict members previous_pairs'.
Proof.
  intros Hsame. apply map_eq. intros member.
  destruct (decide (member ∈ members)) as [Hin|Hout].
  - destruct (avoid_set_lookup members previous_pairs member Hin) as (s & -> & Hs).
    destruct (avoid_set_lookup members previous_pairs' member Hin) as (s' & -> & Hs').
    f_equal. apply set_eq. intros x. by rewrite Hs, Hs', Hsame.
  - assert (∀ h, build_previous_matches_dict members h !! member = None) as Hnone.
    { intros h. apply not_elem_of_dom. rewrite build_previous_matches_dict_dom.
      by rewrite elem_of_list_to_set. }
    by rewrite !Hnone.
Qed.

Lemma generate_pairs_dict `{!RandomSource R} members previous_pairs previous_pairs' (r : R) :
  build_previous_matches_dict members previous_pairs
  = build_previous_matches_dict members previous_pairs' →
  generate_pairs members previous_pairs r = generate_pairs members previous_pairs' r.
Proof. intros Heq. unfold generate_pairs. by rewrite Heq. Qed.

(** X3. Two histories that pair every current member with the same people
    lead to the same round, draw for draw. *)
Theorem generate_pairs_same_partners `{!RandomSource R} members previous_pairs previous_pairs'
    (r : R) :
  (∀ member x, member ∈ members →
     (matched_before previous_pairs member x ↔ matched_before previous_pairs' member x)) →
  generate_pairs members previous_pairs r = generate_pairs members previous_pairs' r.
Proof. intros Hsame. by apply generate_pairs_dict, build_previous_matches_dict_ext. Qed.

Lemma generate_pairs_same_partners_witness :
  generate_pairs ["Liam"; "Olivia"] (Some [[("Olivia", "Liam")]]) [2; 7; 1; 8]
  = generate_pairs ["Liam"; "Olivia"] (Some [[("Liam", "Olivia")]; [("Noah", "Ava")]])
      [2; 7; 1; 8].
Proof.
  apply generate_pairs_same_partners. intros member x Hm. unfold matched_before. simpl.
  split; intros (ps & Hps & Hx).
  - apply list_elem_of_singleton in Hps as ->. exists [("Liam", "Olivia")].
    split; [by left|]. set_unfold. naive_solver.
  - exists [("Olivia", "Liam")]. split; [by left|].
    set_unfold. destruct Hps as [->|[->|[]]]; set_unfold; naive_solver.
Defined.

Lemma matched_before_flip previous_pairs member x :
  matched_before (flip_history previous_pairs) member x ↔ matched_before previous_pairs member x.
Proof.
  unfold matched_before, flip_history.
  destruct previous_pairs as [pair_sets|]; simpl; [|done]. split.
  - intros (ps & Hps & Hx). apply list_elem_of_fmap in Hps as (ps0 & -> & Hps0).
    exists ps0. split; [done|].
    destruct Hx as [Hx|Hx].
    + apply list_elem_of_fmap in Hx. destruct Hx as ([p1 p2] & Heq & Hp).
      simpl in Heq; injection Heq as -> ->. by right.
    + apply list_elem_of_fmap in Hx. destruct Hx as ([p1 p2] & Heq & Hp).
      simpl in Heq; injection Heq as -> ->. by left.
  - intros (ps & Hps & Hx).
    exists ((λ p : string * string, (p.2, p.1)) <$> ps).
    split; [by apply list_elem_of_fmap_2|].
    destruct Hx as [Hx|Hx]; [right|left]; apply list_elem_of_fmap; by eexists (_, _).
Qed.

(** X4. A historic pair counts the same whichever way round it was stored:
    exchanging the sides of every pair of the history changes neither the
    avoid-sets nor the round. *)
Theorem generate_pairs_flip_history `{!RandomSource R} members previous_pairs (r : R) :
  build_previous_matches_dict members (flip_history previous_pairs)
  = build_previous_matches_dict members previous_pairs
  ∧ generate_pairs members (flip_history previous_pairs) r
    = generate_pairs members previous_pairs r.
Proof.
  assert (build_previous_matches_dict members (flip_history previous_pairs)
          = build_previous_matches_dict members previous_pairs) as Heq.
  { apply build_previous_matches_dict_ext. intros member x _. apply matched_before_flip. }
  split; [done|]. by apply generate_pairs_dict.
Qed.

(** ** Rounds *)

Section round_facts.
Context {R : Type} `{!RandomSource R}.

(** One run of the loop body, with what [find_best_match] promises about
    the partner it picked. *)
Lemma pair_step_choice first_member mpm available pairs (r : R) :
  available ≠ [] →
  (∀ m, m ∈ available → is_Some (mpm !! m)) →
  is_Some (mpm !! first_member) →
  ∃ member1 member2 available' r',
    pair_step first_member mpm available pairs r
    = (Ok (available', pairs ++ [(member1, member2)]), r')
    ∧ ((∃ rest previous,
          available = rest ++ [member1] ∧ rest ≡ₚ member2 :: available'
          ∧ mpm !! member1 = Some previous
          ∧ ((∃ m, m ∈ rest ∧ m ∉ previous) → member2 ∉ previous))
       ∨ (available = [member2] ∧ member1 = first_member ∧ available' = [])).
Proof.
  intros Hne Hkeys Hfirst. unfold pair_step. case_decide as Hlen.
  - destruct (pop_nonempty available Hne) as (rest & member1 & -> & ->).
    rewrite length_app in Hlen. simpl in Hlen.
    destruct (Hkeys member1) as [previous Hprev]; [set_solver|].
    destruct (find_best_match_returns member1 rest mpm previous r)
      as (member2 & r' & -> & Hin & Hnew); [by destruct rest; simpl in *; try lia | done |].
    destruct (list_remove_elem_of member2 rest Hin) as (available' & -> & Hperm).
    exists member1, member2, available', r'. split; [done|].
    left. by exists rest, previous.
  - destruct available as [|x [|y available]]; [done| |simpl in Hlen; lia].
    destruct Hfirst as [previous Hprev].
    destruct (find_best_match_returns first_member [x] mpm previous r)
      as (member2 & r' & -> & Hin & _); [done..|].
    apply list_elem_of_singleton in Hin as ->.
    simpl. rewrite decide_True by done.
    exists first_member, x, [], r'. split; [done|]. by right.
Qed.

Lemma pair_loop_unfold fuel first_member mpm available pairs (r : R) available' pairs' r' :
  available ≠ [] →
  pair_step first_member mpm available pairs r = (Ok (available', pairs'), r') →
  pair_loop (S fuel) first_member mpm available pairs r
  = pair_loop fuel first_member mpm available' pairs' r'.
Proof.
  intros Hne Hstep. destruct available as [|x available0] eqn:Hav; [done|].
  cbn [pair_loop]. by rewrite Hstep.
Qed.

(** Nobody is paired with themselves once the member drawn first has left
    the pool, or is still its last item among others. *)
Lemma pair_loop_distinct fuel first_member mpm available pairs (r : R) :
  length available ≤ fuel →
  (∀ m, m ∈ available → is_Some (mpm !! m)) →
  is_Some (mpm !! first_member) →
  NoDup available →
  first_member ∉ available ∨ (2 ≤ length available ∧ last available = Some first_member) →
  ∃ pairs' r',
    pair_loop fuel first_member mpm available pairs r = Some (Ok (pairs ++ pairs'), r')
    ∧ ∀ a b, (a, b) ∈ pairs' → a ≠ b.
Proof.
  intros Hfuel Hkeys Hfirst. revert available pairs r Hfuel Hkeys.
  induction fuel as [|fuel IH]; intros available pairs r Hfuel Hkeys Hnd Hpos.
  { destruct available; [|simpl in Hfuel; lia].
    exists [], r. rewrite app_nil_r. split; [done|]. by intros a b ?%elem_of_nil. }
  destruct (decide (available = [])) as [->|Hne].
  { exists [], r. rewrite app_nil_r. split; [done|]. by intros a b ?%elem_of_nil. }
  destruct (pair_step_choice first_member mpm available pairs r Hne Hkeys Hfirst)
    as (member1 & member2 & available' & r1 & Hstep & Hshape).
  rewrite (pair_loop_unfold _ _ _ _ _ _ _ _ _ Hne Hstep).
  destruct Hshape as [(rest & previous & -> & Hperm & _ & _)|(-> & -> & ->)].
  - apply NoDup_app in Hnd as (Hnd_rest & Hsep & _).
    assert (member1 ∉ rest) as Hm1 by (intros Hin; apply (Hsep _ Hin); set_solver).
    assert (NoDup (member2 :: available')) as Hnd' by by rewrite <- Hperm.
    apply NoDup_cons in Hnd' as [Hm2 Hnd'].
    destruct (IH available' (pairs ++ [(member1, member2)]) r1)
      as (pairs' & r' & -> & Hdistinct).
    + rewrite length_app in Hfuel. simpl in Hfuel.
      assert (length rest = S (length available')) by by rewrite Hperm. lia.
    + intros m Hm. apply Hkeys. rewrite Hperm. set_solver.
    + done.
    + left. intros Hin. destruct Hpos as [Hout|[_ Hlast]].
      * apply Hout. rewrite Hperm. set_solver.
      * rewrite last_snoc in Hlast. injection Hlast as ->.
        apply Hm1. rewrite Hperm. set_solver.
    + exists ((member1, member2) :: pairs'), r'. split; [by rewrite <- app_assoc|].
      intros a b [[= -> ->]|Hin]%elem_of_cons; [|by apply Hdistinct].
      intros ->. apply Hm1. rewrite Hperm. set_solver.
  - exists [(first_member, member2)], r1. split; [by destruct fuel|].
    intros a b [= -> ->]%list_elem_of_singleton.
    destruct Hpos as [Hout|[Hlen _]]; [set_solver | simpl in Hlen; lia].
Qed.

(** A partner from the avoid-set is picked only when everybody left in the
    pool is in it. *)
Lemma pair_loop_prefers fuel first_member mpm available pairs (r : R) :
  length available ≤ fuel →
  (∀ m, m ∈ available → is_Some (mpm !! m)) →
  is_Some (mpm !! first_member) →
  ∃ pairs' r',
    pair_loop fuel first_member mpm available pairs r = Some (Ok (pairs ++ pairs'), r')
    ∧ ∀ pre a b post s x,
        pairs' = pre ++ (a, b) :: post →
        post ≠ [] ∨ Nat.even (length available) = true →
        mpm !! a = Some s → b ∈ s →
        x ∈ available → x ∉ unpacked_members pre → x ≠ a → x ∈ s.
Proof.
  intros Hfuel Hkeys Hfirst. revert available pairs r Hfuel Hkeys.
  induction fuel as [|fuel IH]; intros available pairs r Hfuel Hkeys.
  { destruct available; [|simpl in Hfuel; lia].
    exists [], r. rewrite app_nil_r. split; [done|].
    intros pre a b post s x Hsplit. by destruct pre. }
  destruct (decide (available = [])) as [->|Hne].
  { exists [], r. rewrite app_nil_r. split; [done|].
    intros pre a b post s x Hsplit. by destruct pre. }
  destruct (pair_step_choice first_member mpm available pairs r Hne Hkeys Hfirst)
    as (member1 & member2 & available' & r1 & Hstep & Hshape).
  rewrite (pair_loop_unfold _ _ _ _ _ _ _ _ _ Hne Hstep).
  destruct Hshape as [(rest & previous & -> & Hperm & Hprev & Hnew)|(-> & -> & ->)].
  - assert (length rest = S (length available')) as Hrest by by rewrite Hperm.
    destruct (IH available' (pairs ++ [(member1, member2)]) r1)
      as (pairs' & r' & -> & Hpref).
    + rewrite length_app in Hfuel. simpl in Hfuel. lia.
    + intros m Hm. apply Hkeys. rewrite Hperm. set_solver.
    + exists ((member1, member2) :: pairs'), r'. split; [by rewrite <- app_assoc|].
      intros pre a b post s x Hsplit Hpost Hs Hb Hx Hpre Hxa.
      apply elem_of_app in Hx as [Hx|Hx%list_elem_of_singleton].
      2: { subst x. destruct pre as [|p pre]; simplify_eq/=.
           by apply not_elem_of_cons in Hpre as [? _]. }
      destruct pre as [|p pre]; simplify_eq/=.
      * destruct (decide (x ∈ previous)) as [|Hout]; [done|].
        destruct Hnew; [by exists x | done].
      * apply not_elem_of_cons in Hpre as [_ Hpre].
        apply not_elem_of_cons in Hpre as [Hx2 Hpre].
        apply (Hpref pre a b post s x eq_refl); try done.
        -- destruct Hpost as [?|Heven]; [by left|right].
           rewrite length_app, Hrest in Heven. simpl in Heven.
           by replace (length available' + 1) with (S (length available')) in Heven by lia.
        -- rewrite Hperm in Hx. by apply elem_of_cons in Hx as [?|?].
  - exists [(first_member, member2)], r1. split; [by destruct fuel|].
    intros pre a b post s x Hsplit Hpost.
    destruct pre as [|p [|p' pre]]; simplify_eq/=. by destruct Hpost.
Qed.
End round_facts.

Section round_claims.
Context {R : Type} `{!RandomSource R}.

(** [generate_pairs] on a non-empty list is the loop on the shuffled list. *)
Lemma generate_pairs_loop members previous_pairs (r : R) :
  members ≠ [] →
  ∃ front first_member,
    (shuffle members r).1 = front ++ [first_member]
    ∧ generate_pairs members previous_pairs r
      = pair_loop (length (shuffle members r).1) first_member
          (build_previous_matches_dict members previous_pairs)
          (shuffle members r).1 [] (shuffle members r).2.
Proof.
  intros Hne. unfold generate_pairs.
  destruct members as [|m0 members0] eqn:Hm; [done|]. rewrite <- Hm in *. clear Hm.
  pose proof (shuffle_Permutation members r) as Hperm.
  destruct (shuffle members r) as [available r1]. simpl in *.
  assert (available ≠ []) as Hav.
  { intros ->. by apply Permutation_nil_l in Hperm. }
  destruct (exists_last Hav) as (front & first_member & ->).
  exists front, first_member. by rewrite last_snoc.
Qed.

(** X5. With two or more distinct members nobody is paired with
    themselves. *)
Theorem generate_pairs_no_self_pair members previous_pairs (r : R) :
  NoDup members → 2 ≤ length members →
  ∃ pairs r',
    generate_pairs members previous_pairs r = Some (Ok pairs, r')
    ∧ ∀ a b, (a, b) ∈ pairs → a ≠ b.
Proof.
  intros Hnd Hlen.
  assert (members ≠ []) as Hne by (intros ->; simpl in Hlen; lia).
  destruct (generate_pairs_loop members previous_pairs r Hne)
    as (front & first_member & Hsh & ->).
  pose proof (shuffle_Permutation members r) as Hperm.
  destruct (pair_loop_distinct (length (shuffle members r).1) first_member
              (build_previous_matches_dict members previous_pairs)
              (shuffle members r).1 [] (shuffle members r).2)
    as (pairs & r' & Hloop & Hdistinct).
  - done.
  - intros m Hm. apply build_previous_matches_dict_member. by rewrite <- Hperm.
  - apply build_previous_matches_dict_member. rewrite <- Hperm, Hsh. set_solver.
  - by rewrite Hperm.
  - right. split; [by rewrite (Permutation_length Hperm)|]. rewrite Hsh. apply last_snoc.
  - exists pairs, r'. by rewrite Hloop.
Qed.

(** X6. A pair repeats a historic match only when it could not be helped: if
    [a], drawn from the pool, is paired with a [b] it was matched with
    before, then [a] was matched before with every member not placed in an
    earlier pair.  The pair that gives the member drawn first a second
    partner, at the end of an odd round, is not drawn this way. *)
Theorem generate_pairs_repeat_only_when_forced members previous_pairs (r r' : R)
    pairs pre a b post x :
  generate_pairs members previous_pairs r = Some (Ok pairs, r') →
  pairs = pre ++ (a, b) :: post →
  post ≠ [] ∨ Nat.even (length members) = true →
  matched_before previous_pairs a b →
  x ∈ members → x ∉ unpacked_members pre → x ≠ a →
  matched_before previous_pairs a x.
Proof.
  intros Hgen Hsplit Hpost Hab Hx Hpre Hxa.
  assert (members ≠ []) as Hne.
  { intros ->. by apply elem_of_nil in Hx. }
  destruct (generate_pairs_loop members previous_pairs r Hne)
    as (front & first_member & Hsh & Hloop).
  pose proof (shuffle_Permutation members r) as Hperm.
  destruct (pair_loop_prefers (length (shuffle members r).1) first_member
              (build_previous_matches_dict members previous_pairs)
              (shuffle members r).1 [] (shuffle members r).2)
    as (pairs' & r'' & Hloop' & Hpref).
  - done.
  - intros m Hm. apply build_previous_matches_dict_member. by rewrite <- Hperm.
  - apply build_previous_matches_dict_member. rewrite <- Hperm, Hsh. set_solver.
  - rewrite Hloop, Hloop' in Hgen. simpl in Hgen. injection Hgen as -> ->.
    destruct (pair_loop_returns (length (shuffle members r).1) first_member
                (build_previous_matches_dict members previous_pairs)
                (shuffle members r).1 [] (shuffle members r).2)
      as (pairs2 & r2 & Hloop2 & Hmem & _).
    { done. }
    { intros m Hm. apply build_previous_matches_dict_member. by rewrite <- Hperm. }
    { apply build_previous_matches_dict_member. rewrite <- Hperm, Hsh. set_solver. }
    rewrite Hloop' in Hloop2. simpl in Hloop2. injection Hloop2 as <- <-.
    assert (a ∈ members) as Ha.
    { assert (a ∈ unpacked_members pairs) as Hin.
      { rewrite Hsplit. unfold unpacked_members. rewrite bind_app, bind_cons. set_solver. }
      rewrite Hmem in Hin. rewrite (Permutation_length Hperm) in Hin.
      destruct (Nat.even (length members)).
      - by rewrite <- Hperm.
      - apply elem_of_cons in Hin as [->|Hin]; [|by rewrite <- Hperm].
        rewrite <- Hperm, Hsh. set_solver. }
    destruct (avoid_set_lookup members previous_pairs a Ha) as (s & Hs & Hin).
    apply Hin. apply (Hpref pre a b post s x Hsplit); try done.
    + destruct Hpost as [?|Heven]; [by left|right]. by rewrite Hperm.
    + by apply Hin.
    + by rewrite Hperm.
Qed.
End round_claims.

Lemma generate_pairs_no_self_pair_witness :
  NoDup ["Liam"; "Olivia"; "Noah"] ∧ 2 ≤ length ["Liam"; "Olivia"; "Noah"]
  ∧ ∃ pairs r',
      generate_pairs ["Liam"; "Olivia"; "Noah"] None [1; 0; 2; 0; 0] = Some (Ok pairs, r')
      ∧ ∀ a b, (a, b) ∈ pairs → a ≠ b.
Proof.
  assert (NoDup ["Liam"; "Olivia"; "Noah"]) as Hnd.
  { apply (bool_decide_unpack _). vm_compute. exact I. }
  split; [done|]. split; [simpl; lia|].
  apply (generate_pairs_no_self_pair ["Liam"; "Olivia"; "Noah"] None [1; 0; 2; 0; 0]);
    [done | simpl; lia].
Defined.

Lemma generate_pairs_repeat_only_when_forced_witness :
  matched_before (Some [[("D", "A"); ("D", "B")]; [("C", "D")]]) "D" "C".
Proof.
  apply (generate_pairs_repeat_only_when_forced ["A"; "B"; "C"; "D"]
           (Some [[("D", "A"); ("D", "B")]; [("C", "D")]]) [0; 0; 0; 0; 0; 0] []
           [("D", "A"); ("C", "B")] [] "D" "A" [("C", "B")] "C").
  - vm_compute. reflexivity.
  - reflexivity.
  - by left.
  - exists [("D", "A"); ("D", "B")]. split; [by left|]. left. by left.
  - set_solver.
  - by intros ?%elem_of_nil.
  - done.
Defined.

Section more_engine.
Context {R : Type} `{!RandomSource R}.

(** X7. [find_best_match] raises in two cases only: [PairingError] for an
    empty pool, and [KeyError] when the pool is not empty but the dict has
    no entry for the member to match. *)
Theorem find_best_match_raises member1 available mpm (r : R) e :
  (find_best_match member1 available mpm r).1 = Raise e
  ↔ (available = [] ∧ e = PairingError (NoAvailableMembers member1))
    ∨ (available ≠ [] ∧ mpm !! member1 = None ∧ e = KeyError member1).
Proof.
  unfold find_best_match. destruct available as [|a rest]; simpl.
  - split; [intros [= <-]; by left | by intros [[_ ->]|[? _]]].
  - destruct (mpm !! member1) as [previous|] eqn:Hprev.
    + split; [|by intros [[? _]|(_ & ? & _)]].
      destruct (filter _ _); [destruct (choice a rest r) | destruct (choice _ _ r)]; done.
    + simpl. split; [intros [= <-]; by right | by intros [[? _]|(_ & _ & ->)]].
Qed.
End more_engine.

(** ** Decoding stored histories *)

Lemma parse_message_acc acc m :
  parse_message acc m
  = match parse_message [] m with
    | Ok rounds => Ok (acc ++ rounds)
    | Raise e => Raise e
    end.
Proof.
  unfold parse_message.
  destruct (py_get m "metadata" VNone) as [metadata|]; simpl; [|done].
  destruct (negb (truthy metadata)); [by rewrite app_nil_r|].
  destruct (py_get metadata "event_type" VNone) as [event_type|]; simpl; [|done].
  destruct (py_ne_str event_type marker); [by rewrite app_nil_r|].
  destruct (py_get metadata "event_payload" (VDict ∅)) as [event_payload|]; simpl; [|done].
  destruct (py_get event_payload "pairs" (VList [])) as [pairs_data|]; simpl; [|done].
  destruct (truthy pairs_data); [|by rewrite app_nil_r].
  destruct (py_iter pairs_data) as [items|]; simpl; [|done].
  by destruct (comprehension decode_pair items).
Qed.

Lemma parse_loop_acc messages acc :
  parse_loop messages acc
  = match parse_loop messages [] with
    | Ok rounds => Ok (acc ++ rounds)
    | Raise e => Raise e
    end.
Proof.
  revert acc. induction messages as [|m messages IH]; intros acc; simpl.
  - by rewrite app_nil_r.
  - rewrite (parse_message_acc acc m).
    destruct (parse_message [] m) as [rounds|e]; simpl; [|done].
    rewrite (IH (acc ++ rounds)), (IH rounds).
    destruct (parse_loop messages []); [|done]. by rewrite app_assoc.
Qed.

Lemma default_history_of (rounds : PairHistoryV) : default [] (history_of rounds) = rounds.
Proof. by destruct rounds. Qed.

Lemma parse_app_histories before after :
  parse_previous_pairs_from_metadata (before ++ after)
  = match parse_previous_pairs_from_metadata before with
    | Raise e => Raise e
    | Ok h1 =>
        match parse_previous_pairs_from_metadata after with
        | Raise e => Raise e
        | Ok h2 => Ok (join_histories h1 h2)
        end
    end.
Proof.
  unfold parse_previous_pairs_from_metadata, join_histories.
  rewrite parse_loop_app.
  destruct (parse_loop before []) as [rounds1|e]; simpl; [|done].
  rewrite parse_loop_acc.
  destruct (parse_loop after []) as [rounds2|e]; simpl; [|done].
  by rewrite !default_history_of.
Qed.

(** X8. Decoding a history in two parts: the exception of the first part, else
    that of the second, else the rounds of the first followed by the rounds
    of the second. *)
Theorem parse_previous_pairs_app before after :
  parse_previous_pairs_from_metadata (before ++ after)
  = match parse_previous_pairs_from_metadata before with
    | Raise e => Raise e
    | Ok h1 =>
        match parse_previous_pairs_from_metadata after with
        | Raise e => Raise e
        | Ok h2 => Ok (join_histories h1 h2)
        end
    end.
Proof. apply parse_app_histories. Qed.

(** X9. The decoder raises exactly what the first record that cannot be decoded
    on its own raises. *)
Theorem parse_previous_pairs_first_failure messages e :
  parse_previous_pairs_from_metadata messages = Raise e
  ↔ ∃ before m after,
      messages = before ++ m :: after
      ∧ (∃ h, parse_previous_pairs_from_metadata before = Ok h)
      ∧ parse_previous_pairs_from_metadata [m] = Raise e.
Proof.
  split.
  - induction messages as [|m messages IH] using rev_ind.
    + done.
    + rewrite parse_app_histories.
      destruct (parse_previous_pairs_from_metadata messages) as [h|e'] eqn:Hbefore.
      * destruct (parse_previous_pairs_from_metadata [m]) as [h'|e'] eqn:Hm; [done|].
        intros [= ->]. exists messages, m, []. split; [done|]. split; [by exists h | done].
      * intros [= ->]. destruct (IH eq_refl) as (before & m' & after & -> & Hok & Hm').
        exists before, m', (after ++ [m]). split; [by rewrite <- app_assoc | done].
  - intros (before & m & after & -> & [h Hok] & Hm).
    rewrite parse_app_histories, Hok.
    change (m :: after) with ([m] ++ after). by rewrite parse_app_histories, Hm.
Qed.

Lemma stored_message_round pairs now fields :
  record_round (stored_message (pairs, now, fields))
    (if decide (pairs = []) then None else Some (pair_value <$> pairs)).
Proof.
  unfold stored_message. case_decide as Hpairs.
  - subst pairs.
    eapply round_no_pairs; [apply lookup_insert_eq | done |].
    by eapply (empty_pairs _ _ (VList [])).
  - eapply round_matching; [apply lookup_insert_eq | done | done | done | |].
    + by destruct pairs.
    + apply entries_of_pairs.
Qed.

Lemma parse_stored_rounds (records : list (PairList * string * gmap string pyval)) :
  parse_previous_pairs_from_metadata (stored_message <$> records)
  = Ok (history_of
          ((λ pairs : PairList, pair_value <$> pairs)
           <$> filter (λ pairs : PairList, pairs ≠ [])
                 ((λ record : PairList * string * gmap string pyval, record.1.1)
                  <$> records))).
Proof.
  rewrite (parse_rounds _
    ((λ record : PairList * string * gmap string pyval,
        if decide (record.1.1 = []) then None else Some (pair_value <$> record.1.1))
     <$> records)).
  - do 2 f_equal. induction records as [|[[pairs now] fields] records IH]; [done|].
    rewrite !fmap_cons. simpl. rewrite filter_cons. simpl.
    case_decide as Hpairs.
    + rewrite decide_False by (by intros Hne). done.
    + rewrite decide_True by done. rewrite fmap_cons. by f_equal.
  - induction records as [|[[pairs now] fields] records IH]; [constructor|].
    rewrite !fmap_cons. constructor; [apply stored_message_round | done].
Qed.

(** X10. What the bot stored is what it reads back: the history decoded from the
    stored messages is the list of the stored rounds that have pairs, in the
    order of the messages, and [None] when there is none. *)
Theorem parse_stored_history (records : list (PairList * string * gmap string pyval)) :
  parse_previous_pairs_from_metadata (stored_message <$> records)
  = Ok (history_of ((λ pairs : PairList, pair_value <$> pairs) <$> stored_rounds records)).
Proof. apply parse_stored_rounds. Qed.

(** X11. From one run to the next: whoever a member was paired with in a stored
    round is in the member's avoid-set once the stored messages are decoded
    and handed to the match engine, whichever side of the pair the member
    was on. *)
Theorem stored_partner_is_avoided records members pairs now fields a b :
  (pairs, now, fields) ∈ records → (a, b) ∈ pairs →
  parse_previous_pairs_from_metadata (stored_message <$> records)
  = Ok (Some ((λ pairs : PairList, pair_value <$> pairs) <$> stored_rounds records))
  ∧ (a ∈ members →
     ∃ s, build_previous_matches_dict members (Some (stored_rounds records)) !! a = Some s
          ∧ b ∈ s)
  ∧ (b ∈ members →
     ∃ s, build_previous_matches_dict members (Some (stored_rounds records)) !! b = Some s
          ∧ a ∈ s).
Proof.
  intros Hrec Hpair.
  assert (pairs ∈ stored_rounds records) as Hround.
  { unfold stored_rounds. apply list_elem_of_filter. split.
    - intros ->. by apply elem_of_nil in Hpair.
    - apply list_elem_of_fmap. by exists (pairs, now, fields). }
  split; [|split].
  - rewrite parse_stored_rounds. fold (stored_rounds records).
    destruct (stored_rounds records); [by apply elem_of_nil in Hround | done].
  - intros Ha. destruct (avoid_set_lookup members (Some (stored_rounds records)) a Ha)
      as (s & Hs & Hin).
    exists s. split; [done|]. apply Hin. exists pairs. split; [done | by left].
  - intros Hb. destruct (avoid_set_lookup members (Some (stored_rounds records)) b Hb)
      as (s & Hs & Hin).
    exists s. split; [done|]. apply Hin. exists pairs. split; [done | by right].
Qed.

Lemma stored_partner_is_avoided_witness :
  ∃ s : gset string,
    build_previous_matches_dict ["Liam"; "Emma"]
      (Some (stored_rounds [([("Olivia", "Liam")], "t1", ∅)])) !! "Liam" = Some s
    ∧ "Olivia" ∈ s.
Proof.
  apply (stored_partner_is_avoided [([("Olivia", "Liam")], "t1", ∅)] ["Liam"; "Emma"]
           [("Olivia", "Liam")] "t1" ∅ "Olivia" "Liam"); set_solver.
Defined.

(** ** Round summary and configuration *)

Lemma enumerate_from_lookup {A : Type} (start : nat) (l : list A) i :
  enumerate_from start l !! i = (λ x, (start + i, x)) <$> l !! i.
Proof.
  revert start i. induction l as [|x l IH]; intros start i; [done|].
  destruct i as [|i]; simpl.
  - by rewrite Nat.add_0_r.
  - rewrite IH. by rewrite Nat.add_succ_r.
Qed.

Lemma append_nonempty (s1 s2 : string) : s1 ≠ "" → s1 +:+ s2 ≠ "".
Proof. by destruct s1. Qed.

Lemma append_nonempty_r (s1 s2 : string) : s2 ≠ "" → s1 +:+ s2 ≠ "".
Proof. destruct s1; [done|]. simpl. done. Qed.

Lemma append_assoc (s1 s2 s3 : string) : (s1 +:+ s2) +:+ s3 = s1 +:+ s2 +:+ s3.
Proof.
  induction s1 as [|a s1 IH]; [done|].
  change (String a ((s1 +:+ s2) +:+ s3) = String a (s1 +:+ s2 +:+ s3)). by f_equal.
Qed.

Lemma append_empty_r (s : string) : s +:+ "" = s.
Proof.
  induction s as [|a s IH]; [done|].
  change (String a (s +:+ "") = String a s). by f_equal.
Qed.

Lemma join_cons (line : string) (lines : list string) :
  String.concat "" (line :: lines) = line +:+ String.concat "" lines.
Proof. destruct lines; simpl; [by rewrite append_empty_r | done]. Qed.

Lemma join_app (lines1 lines2 : list string) :
  String.concat "" (lines1 ++ lines2)
  = String.concat "" lines1 +:+ String.concat "" lines2.
Proof.
  induction lines1 as [|line lines1 IH]; [done|].
  rewrite <- app_comm_cons, !join_cons, IH. by rewrite append_assoc.
Qed.

Lemma enumerate_from_imap {A B : Type} (f : nat * A → B) (start : nat) (l : list A) :
  f <$> enumerate_from start l = imap (λ i x, f (start + i, x)) l.
Proof.
  revert start. induction l as [|x l IH]; intros start; [done|].
  cbn [enumerate_from]. rewrite fmap_cons, imap_cons, IH, Nat.add_0_r.
  f_equal. apply imap_ext. intros i y _. simpl. by rewrite Nat.add_succ_r.
Qed.

(** X12. The summary is empty for the empty round only.  For any other round
    it is the header (the given text, a colon, a newline), then one line for
    each pair, in the order of the round, the pair at position [i] (from 0)
    on the line numbered [i + 1] with both members as mentions, then the
    closing note with the number of lookback days; so each pair of the round
    stands on its numbered line inside the summary, after the lines of the
    pairs before it. *)
Theorem format_pairs_message_listing pairs magical_text lookback_days :
  let listed (i : nat) (p : string * string) : string :=
    " " +:+ pretty (i + 1) +:+ ". <@" +:+ p.1 +:+ "> and <@" +:+ p.2 +:+ ">" +:+ nl in
  let note : string :=
    "An uneven number of members results in one person getting two coffee matches. Matches from the last "
    +:+ pretty lookback_days
    +:+ " days considered to avoid matching the same members several times in the time period." in
  (format_pairs_message pairs magical_text lookback_days = "" ↔ pairs = [])
  ∧ (pairs ≠ [] →
     format_pairs_message pairs magical_text lookback_days
     = magical_text +:+ ":" +:+ nl +:+ String.concat "" (imap listed pairs) +:+ note)
  ∧ (∀ i p, pairs !! i = Some p →
       ∃ rest,
         format_pairs_message pairs magical_text lookback_days
         = magical_text +:+ ":" +:+ nl
           +:+ String.concat "" (imap listed (take i pairs)) +:+ listed i p +:+ rest).
Proof.
  intros listed note.
  assert (pairs ≠ [] →
     format_pairs_message pairs magical_text lookback_days
     = magical_text +:+ ":" +:+ nl +:+ String.concat "" (imap listed pairs) +:+ note)
    as Hmessage.
  { intros Hne. destruct pairs as [|p pairs]; [done|].
    unfold format_pairs_message, pair_lines. rewrite enumerate_from_imap.
    rewrite !append_assoc. reflexivity. }
  split; [|split; [done|]].
  - split; [|by intros ->]. destruct pairs as [|p pairs]; [done|].
    intros Hempty. exfalso. revert Hempty. unfold format_pairs_message.
    apply append_nonempty, append_nonempty_r, append_nonempty_r. done.
  - intros i p Hp.
    rewrite Hmessage by (by intros ->).
    assert (∃ later, imap listed pairs
                     = imap listed (take i pairs) ++ listed i p :: later)
      as [later ->].
    { eexists.
      transitivity (imap listed (take i pairs ++ p :: drop (S i) pairs));
        [by rewrite take_drop_middle|].
      rewrite imap_app, imap_cons.
      rewrite length_take_le by (apply Nat.lt_le_incl; by eapply lookup_lt_Some).
      rewrite Nat.add_0_r. reflexivity. }
    rewrite join_app, join_cons. eexists. by rewrite !append_assoc.
Qed.

Lemma format_pairs_message_listing_witness :
  format_pairs_message [("U1", "U2"); ("U3", "U4")] "Matches" 28
  = "Matches:" +:+ nl +:+ " 1. <@U1> and <@U2>" +:+ nl +:+ " 2. <@U3> and <@U4>" +:+ nl
    +:+ "An uneven number of members results in one person getting two coffee matches. "
    +:+ "Matches from the last 28 days considered to avoid matching the "
    +:+ "same members several times in the time period.".
Proof.
  etrans;
    [apply (format_pairs_message_listing [("U1", "U2"); ("U3", "U4")] "Matches" 28); done|].
  vm_compute. reflexivity.
Defined.

Lemma unset_false value : unset value = false ↔ ∃ s, value = Some s ∧ s ≠ "".
Proof.
  destruct value as [s|]; simpl.
  - rewrite String.eqb_neq. naive_solver.
  - naive_solver.
Qed.

Section config_facts.
Variable py_int : string → option Z.
Variable py_lower : string → string.

(** X13. A configuration that [from_env] returns has the three required texts,
    none of them empty, as the environment gives them, and a number of
    lookback days that is what [int] makes of [LOOKBACK_DAYS] and is at
    least 1. *)
Theorem from_env_loaded env config :
  from_env py_int py_lower env = Loaded config →
  env !! "SLACK_API_TOKEN" = Some (slack_token config) ∧ slack_token config ≠ ""
  ∧ env !! "CHANNEL_NAME" = Some (channel_name config) ∧ channel_name config ≠ ""
  ∧ env !! "MAGICAL_TEXT" = Some (magical_text config) ∧ magical_text config ≠ ""
  ∧ (∃ s, env !! "LOOKBACK_DAYS" = Some s ∧ py_int s = Some (lookback_days config))
  ∧ (1 ≤ lookback_days config)%Z.
Proof.
  unfold from_env.
  destruct (unset (env !! "SLACK_API_TOKEN")) eqn:Htoken; [done|].
  destruct (unset (env !! "CHANNEL_NAME")) eqn:Hchannel; [done|].
  destruct (unset (env !! "LOOKBACK_DAYS")) eqn:Hdays; [done|].
  apply unset_false in Htoken as (token & -> & Htoken).
  apply unset_false in Hchannel as (channel & -> & Hchannel).
  apply unset_false in Hdays as (days & -> & Hdays). simpl.
  destruct (py_int days) as [n|] eqn:Hint; [|done].
  case_decide as Hn; [done|].
  destruct (unset (env !! "MAGICAL_TEXT")) eqn:Htext; [done|].
  apply unset_false in Htext as (text & -> & Htext).
  intros [= <-]. simpl. repeat split; try done; [by exists days | lia].
Qed.

(** X14. [from_env] returns a configuration exactly when the four required
    variables are set and not empty and [LOOKBACK_DAYS] is an integer of at
    least 1; the optional variables never make it fail. *)
Theorem from_env_succeeds_iff env :
  (∃ config, from_env py_int py_lower env = Loaded config)
  ↔ unset (env !! "SLACK_API_TOKEN") = false
    ∧ unset (env !! "CHANNEL_NAME") = false
    ∧ unset (env !! "MAGICAL_TEXT") = false
    ∧ ∃ s n, env !! "LOOKBACK_DAYS" = Some s ∧ s ≠ "" ∧ py_int s = Some n ∧ (1 ≤ n)%Z.
Proof.
  unfold from_env. split.
  - intros [config Hload].
    destruct (unset (env !! "SLACK_API_TOKEN")); [done|].
    destruct (unset (env !! "CHANNEL_NAME")); [done|].
    destruct (unset (env !! "LOOKBACK_DAYS")) eqn:Hdays; [done|].
    apply unset_false in Hdays as (days & Hdays & Hne). rewrite Hdays in *. simpl in *.
    destruct (py_int days) as [n|] eqn:Hint; [|done].
    case_decide as Hn; [done|].
    destruct (unset (env !! "MAGICAL_TEXT")); [done|].
    do 3 (split; [done|]). exists days, n. repeat split; try done. lia.
  - intros (-> & -> & -> & days & n & Hdays & Hne & Hint & Hn).
    assert (unset (env !! "LOOKBACK_DAYS") = false) as ->.
    { apply unset_false. by exists days. }
    rewrite Hdays. simpl. rewrite Hint. rewrite decide_False by lia. by eexists.
Qed.
End config_facts.

Lemma from_env_loaded_witness :
  ∃ config,
    from_env int_of_28 id
      {[ "SLACK_API_TOKEN" := "xoxb-1"; "CHANNEL_NAME" := "coffee";
         "LOOKBACK_DAYS" := "28"; "MAGICAL_TEXT" := "Matches" ]} = Loaded config
    ∧ (1 ≤ lookback_days config)%Z.
Proof.
  eexists. split; [vm_compute; reflexivity|].
  eapply (from_env_loaded int_of_28 id
            {[ "SLACK_API_TOKEN" := "xoxb-1"; "CHANNEL_NAME" := "coffee";
               "LOOKBACK_DAYS" := "28"; "MAGICAL_TEXT" := "Matches" ]}).
  vm_compute. reflexivity.
Defined.

(** ** The Slack client wrapper *)

Lemma record_channel_dom d c d' :
  record_channel d c = Ok d' → dom d' = dom d.
Proof.
  unfold record_channel.
  destruct (py_get c "name" VNone) as [name|]; simpl; [|done].
  destruct (py_in_keys name d) as [[|]|] eqn:Hin; simpl; [| by intros [= <-] | done].
  destruct (py_getitem c "id") as [id|]; simpl; [|done].
  destruct name as [| | |s| |]; try by intros [= <-].
  intros [= <-]. simpl in Hin. injection Hin as Hin. apply bool_decide_eq_true in Hin.
  rewrite dom_insert_L. apply elem_of_dom in Hin. set_solver.
Qed.

Lemma record_channels_dom channel_list d d' :
  record_channels d channel_list = Ok d' → dom d' = dom d.
Proof.
  revert d. induction channel_list as [|c rest IH]; intros d; simpl.
  - by intros [= <-].
  - destruct (record_channel d c) as [d1|] eqn:Hc; simpl; [|done].
    intros Hrest. rewrite (IH _ Hrest). by apply record_channel_dom in Hc.
Qed.

Lemma has_none_value_false (d : gmap string pyval) name id :
  has_none_value d = false → d !! name = Some id → id ≠ VNone.
Proof.
  unfold has_none_value. intros Hnone Hname ->.
  apply elem_of_map_to_list, list_elem_of_In in Hname.
  assert (existsb (λ kv : string * pyval, is_None kv.2) (map_to_list d) = true) as Hex.
  { apply existsb_exists. by exists (name, VNone). }
  by rewrite Hnone in Hex.
Qed.

Section slack_client_facts.
Context {W : Type} `{!WebClient W}.

(** X15. Once [get_bot_user_id] has returned a truthy id, every further call
    returns that id from the cache and leaves the world alone. *)
Theorem get_bot_user_id_cached (self self' : pyval * W) id :
  get_bot_user_id self = (Ok id, self') → truthy id = true →
  get_bot_user_id self' = (Ok id, self').
Proof.
  unfold get_bot_user_id. destruct self as [bot w].
  destruct (truthy bot) eqn:Hbot.
  - intros [= <- <-] _. by rewrite Hbot.
  - destruct (auth_test w) as [[test| |e] w1]; [|done..].
    destruct (user_id_of test) as [user_id| |e]; [|done..].
    intros [= <- <-] Hid. by rewrite Hid.
Qed.

Lemma resolve_channels_dom fuel d next_cursor (w w' : W) d' :
  resolve_channels fuel d next_cursor w = Some (Returned d', w') → dom d' = dom d.
Proof.
  revert d next_cursor w. induction fuel as [|fuel IH]; intros d next_cursor w; [done|].
  simpl. destruct (conversations_list next_cursor w) as [[resp| |e] w1]; [|done..].
  destruct (channels_of resp) as [channel_list| |e]; [|done..].
  destruct (record_channels d channel_list) as [d1|e] eqn:Hrec; [|done].
  apply record_channels_dom in Hrec.
  destruct (negb (has_none_value d1)); [by intros [= <- <-]|].
  destruct (more_cursor_of resp) as [[c|]| |e]; [| |done..].
  - intros Hrest. by rewrite (IH _ _ _ Hrest).
  - by intros [= <- <-].
Qed.

(** X16. The dict that [get_channels_id] returns has an entry for each of the
    requested channels and for nothing else, and no entry is [None]; with
    [chan_names_are_ids] every name is its own id and Slack is not asked. *)
Theorem get_channels_id_resolved fuel channels chan_names_are_ids (w w' : W)
    (chan_name_to_id : gmap string pyval) :
  get_channels_id fuel channels chan_names_are_ids w = Some (Ok chan_name_to_id, w') →
  (∀ name, is_Some (chan_name_to_id !! name) ↔ name ∈ channels)
  ∧ (∀ name id, chan_name_to_id !! name = Some id → id ≠ VNone)
  ∧ (chan_names_are_ids = true →
     w' = w ∧ ∀ name, name ∈ channels → chan_name_to_id !! name = Some (VStr name)).
Proof.
  unfold get_channels_id. destruct chan_names_are_ids.
  - intros [= <- <-].
    assert (∀ name, (list_to_map ((λ chan, (chan, VStr chan)) <$> channels)
                       : gmap string pyval) !! name
                    = if decide (name ∈ channels) then Some (VStr name) else None) as Hlookup.
    { intros name. induction channels as [|chan channels IH]; [done|].
      rewrite fmap_cons. simpl. destruct (decide (chan = name)) as [->|Hne].
      - rewrite lookup_insert_eq. rewrite decide_True; [done | by left].
      - rewrite lookup_insert_ne by done. rewrite IH.
        destruct (decide (name ∈ channels)).
        + rewrite decide_True; [done | by right].
        + rewrite decide_False; [done|]. by intros [->|?]%elem_of_cons. }
    split; [|split].
    + intros name. rewrite Hlookup. case_decide; [done|].
      split; [by intros [? ?] | done].
    + intros name id. rewrite Hlookup. case_decide; [|done]. by intros [= <-].
    + intros _. split; [done|]. intros name Hin. rewrite Hlookup. by rewrite decide_True.
  - destruct (resolve_channels fuel _ None w) as [[[d| |e] w1]|] eqn:Hres; [|done..].
    destruct (has_none_value d) eqn:Hnone; [done|]. intros [= <- <-].
    apply resolve_channels_dom in Hres.
    split; [|split; [|done]].
    + intros name. rewrite <- elem_of_dom, Hres, dom_list_to_map_L.
      rewrite elem_of_list_to_set, <- list_fmap_compose.
      rewrite list_elem_of_fmap. split; [by intros (? & -> & ?) | by exists name].
    + intros name id. by apply has_none_value_false.
Qed.
End slack_client_facts.

Lemma from_user_sent_by bot conversation_history kept :
  from_user bot conversation_history = Ok kept →
  Forall (λ msg, py_get msg "user" VNone = Ok (VStr bot)) kept.
Proof.
  revert kept. induction conversation_history as [|msg rest IH]; intros kept; simpl.
  - by intros [= <-].
  - destruct (py_get msg "user" VNone) as [user|] eqn:Huser; simpl; [|done].
    destruct (from_user bot rest) as [kept'|]; simpl; [|done].
    destruct (py_ne_str user bot) eqn:Hne; intros [= <-]; [by apply IH|].
    constructor; [|by apply IH]. apply py_ne_str_false in Hne. by subst.
Qed.

Lemma py_slice_to_prefix {A : Type} (l : list A) n : ∃ k, py_slice_to l n = take k l.
Proof. unfold py_slice_to. case_decide; by eexists. Qed.

Section history_facts.
Context {W : Type} `{!WebClient W}.

(** X17. With a bot user id given, every message that [get_conversation_history]
    returns is a message whose [user] is that id. *)
Theorem get_conversation_history_from_bot fuel channel_id oldest newest bot max_messages
    (w w' : W) messages :
  bot ≠ "" →
  get_conversation_history fuel channel_id oldest newest (Some bot) max_messages w
  = Some (Ok messages, w') →
  Forall (λ msg, py_get msg "user" VNone = Ok (VStr bot)) messages.
Proof.
  intros Hbot. unfold get_conversation_history.
  destruct (fetch_history fuel channel_id oldest newest [] None w)
    as [[[history| |e] w1]|]; [|done..].
  apply String.eqb_neq in Hbot. rewrite Hbot.
  destruct (from_user bot history) as [kept|] eqn:Hkept; [|done].
  apply from_user_sent_by in Hkept.
  destruct max_messages as [n|]; [|by intros [= <- <-]].
  destruct (n =? 0)%Z; intros [= <- <-]; [done|].
  destruct (py_slice_to_prefix kept n) as [k ->]. by apply Forall_take.
Qed.

(** X18. What [max_messages] does to the result: nothing when it is [None] or 0;
    a positive number keeps that many messages from the front; a negative
    number drops that many from the end. *)
Theorem get_conversation_history_limit fuel channel_id oldest newest bot_user_id
    max_messages (w w' : W) messages :
  get_conversation_history fuel channel_id oldest newest bot_user_id max_messages w
  = Some (Ok messages, w') →
  ∃ unlimited,
    get_conversation_history fuel channel_id oldest newest bot_user_id None w
    = Some (Ok unlimited, w')
    ∧ match max_messages with
      | None => messages = unlimited
      | Some n =>
          if decide (n = 0)%Z then messages = unlimited
          else if decide (0 < n)%Z
          then messages = take (Z.to_nat n) unlimited ∧ (Z.of_nat (length messages) ≤ n)%Z
          else messages = take (length unlimited - Z.to_nat (- n)) unlimited
      end.
Proof.
  unfold get_conversation_history.
  destruct (fetch_history fuel channel_id oldest newest [] None w)
    as [[[history| |e] w1]|]; [|done..].
  destruct (match bot_user_id with
            | Some bot => if String.eqb bot "" then Ok history else from_user bot history
            | None => Ok history
            end) as [kept|]; [|done].
  destruct max_messages as [n|]; [|intros [= <- <-]; by exists kept].
  destruct (n =? 0)%Z eqn:Hn; intros [= <- <-]; exists kept; (split; [done|]).
  - apply Z.eqb_eq in Hn. by rewrite decide_True.
  - apply Z.eqb_neq in Hn. rewrite decide_False by done.
    unfold py_slice_to.
    destruct (decide (0 ≤ n)%Z) as [Hpos|Hneg]; destruct (decide (0 < n)%Z); try lia.
    + split; [done|]. rewrite length_take. lia.
    + f_equal. lia.
Qed.
End history_facts.

Lemma get_bot_user_id_cached_witness :
  get_bot_user_id (VStr "B01", [([VStr "B02"], false)])
  = (Ok (VStr "B01"), (VStr "B01", [([VStr "B02"], false)])).
Proof.
  apply (get_bot_user_id_cached (VNone, [([VStr "B01"], false); ([VStr "B02"], false)]));
    reflexivity.
Defined.

Lemma get_channels_id_resolved_witness :
  is_Some (({[ "coffee" := VStr "C1"; "memory" := VStr "C2" ]} : gmap string pyval)
             !! "memory")
  ↔ "memory" ∈ ["coffee"; "memory"].
Proof.
  apply (get_channels_id_resolved 2 ["coffee"; "memory"] false
           [([VDict {[ "name" := VStr "coffee"; "id" := VStr "C1" ]};
              VDict {[ "name" := VStr "general"; "id" := VStr "C0" ]}], true);
            ([VDict {[ "name" := VStr "memory"; "id" := VStr "C2" ]}], false)]
           []).
  vm_compute. reflexivity.
Defined.

Lemma get_conversation_history_from_bot_witness :
  Forall (λ msg, py_get msg "user" VNone = Ok (VStr "B01"))
    [VDict {[ "user" := VStr "B01"; "text" := VStr "round 1" ]}].
Proof.
  apply (@get_conversation_history_from_bot _ scripted_web 2 "C2" () () "B01" None
           [([VDict {[ "user" := VStr "B01"; "text" := VStr "round 1" ]};
              VDict {[ "user" := VStr "U7"; "text" := VStr "hello" ]}], false)] []);
    [done | vm_compute; reflexivity].
Defined.

Lemma get_conversation_history_limit_witness :
  ∃ unlimited,
    @get_conversation_history _ scripted_web 2 "C2" () () None None
      [([VStr "m1"; VStr "m2"], true); ([VStr "m3"], false)]
    = Some (Ok unlimited, [])
    ∧ [VStr "m1"; VStr "m2"] = take (length unlimited - Z.to_nat (- (-1))) unlimited.
Proof.
  apply (@get_conversation_history_limit _ scripted_web 2 "C2" () () None (Some (-1)%Z)
           [([VStr "m1"; VStr "m2"], true); ([VStr "m3"], false)] []).
  vm_compute. reflexivity.
Defined.
